(** * Forklift route optimizer: contextual Thompson sampling with a
      bounded observation window

    A shallow embedding of [thompson-stm.py] (class
    [ForkliftRouteOptimizer]) and the properties of its specification.

    Modelling choices:
    - Python [int] is [Z], unbounded; where the code hands an integer to
      C ([deque(maxlen=...)] takes a [ssize_t], [np.random.beta] takes
      doubles) the conversion can raise [OverflowError], and does here;
    - the method [softmax] is embedded over the real numbers [R]: its
      theorems are about the function that the float64 code evaluates
      with rounding, and say so;
    - [tau] is a real number: a float that is NaN or subnormal passes
      [validate_init_params] as a positive real does, and differs from
      one only inside the float64 arithmetic of [softmax], which
      [select_route] leaves open;
    - the two registries [route_history] and [beta_params] are finite
      maps keyed by the context pair [(zone_id, task_type)];
    - [collections.deque(maxlen=...)] is a record of its bound and its
      items, oldest first;
    - a method that mutates [self] and may raise returns the engine it
      leaves behind together with [Ok] or [Raise]: the mutations made
      before the exception are kept, as in Python;
    - the two random primitives ([np.random.beta], [np.random.choice])
      make [select_route] a relation between the engine and its possible
      outcomes.  The float64 arithmetic between the samples and the
      choice is not modelled: the relation leaves open which key the
      choice returns and whether it accepts the probabilities, so what is
      proved of every outcome holds of the code, and nothing is claimed
      from the mere existence of an outcome;
    - running out of memory is not modelled. *)

From Stdlib Require Import ZArith List Reals Lra Lia String.
From stdpp Require Import gmap list strings.

Local Open Scope Z_scope.

(** ** Exceptions and results *)

Inductive exn : Type :=
| ValueError (msg : string)
| KeyError
| OverflowError (msg : string).

Inductive result (A : Type) : Type :=
| Ok (a : A)
| Raise (e : exn).
Arguments Ok {A} a.
Arguments Raise {A} e.

#[global] Instance result_ret : MRet result := @Ok.
#[global] Instance result_bind : MBind result := λ A B f r,
  match r with Ok a => f a | Raise e => Raise e end.

(** ** [collections.deque] with a bound *)

Record deque : Type := Deque { maxlen : Z; items : list (Z * Z) }.

(** The largest [Py_ssize_t] of a 64-bit CPython. *)
Definition PY_SSIZE_T_MAX : Z := 2 ^ 63 - 1.

(** [deque(maxlen=n)]: the bound is converted to a [Py_ssize_t], which
    raises for an integer that does not fit, and must not be negative. *)
Definition deque_new (n : Z) : result deque :=
  if (n <? - PY_SSIZE_T_MAX - 1) || (PY_SSIZE_T_MAX <? n) then
    Raise (OverflowError "Python int too large to convert to C ssize_t")
  else if n <? 0 then
    Raise (ValueError "maxlen must be non-negative")
  else Ok (Deque n []).

(** [d.append(x)]: the item is added on the right and, when the bound is
    exceeded, one item is dropped on the left. *)
Definition deque_append (d : deque) (x : Z * Z) : deque :=
  let l := items d ++ [x] in
  Deque (maxlen d) (if maxlen d <? Z.of_nat (length l) then tail l else l).

(** ** Dictionaries of Beta parameters *)

(** [counts[route]] *)
Definition getitem (counts : gmap Z (Z * Z)) (route : Z) : result (Z * Z) :=
  match counts !! route with
  | Some v => Ok v
  | None => Raise KeyError
  end.

(** [range(lo, hi)] *)
Definition range (lo hi : Z) : list Z := seqZ lo (hi - lo).

(** [{r: [1, 1] for r in range(route_min, route_max + 1)}] *)
Definition fresh_counts (route_min route_max : Z) : gmap Z (Z * Z) :=
  list_to_map ((λ r, (r, (1, 1))) <$> range route_min (route_max + 1)).

(** The body of the loop of [_recompute_betas]:
    [counts[route][0] += success; counts[route][1] += 1 - success]. *)
Definition count_observation (counts : gmap Z (Z * Z)) (obs : Z * Z)
  : result (gmap Z (Z * Z)) :=
  let '(route, success) := obs in
  '(a, b) ← getitem counts route;
  let counts := <[route := (a + success, b)]> counts in
  '(a, b) ← getitem counts route;
  Ok (<[route := (a, b + (1 - success))]> counts).

(** [for route, success in window: ...] *)
Fixpoint count_window (counts : gmap Z (Z * Z)) (window : list (Z * Z))
  : result (gmap Z (Z * Z)) :=
  match window with
  | [] => Ok counts
  | obs :: window =>
      counts ← count_observation counts obs;
      count_window counts window
  end.

(** ** Construction *)

(** [validate_init_params] *)
Definition validate_init_params (route_min route_max : Z) (tau : R) (memory : Z)
  : result unit :=
  if route_min >=? route_max then
    Raise (ValueError "route_min must be less than route_max")
  else if Rle_dec tau 0 then
    Raise (ValueError "tau must be positive")
  else if memory <? 1 then
    Raise (ValueError "memory must be at least 1")
  else Ok tt.

Section Optimizer.
Context {Zone Task : Type} `{Countable Zone} `{Countable Task}.

(** The context key [(zone_id, task_type)]. *)
Abbreviation context := (Zone * Task)%type.

Record ForkliftRouteOptimizer : Type := Engine {
  route_min : Z;
  route_max : Z;
  tau : R;
  memory : Z;
  route_history : gmap context deque;
  beta_params : gmap context (gmap Z (Z * Z))
}.

Definition set_route_history (self : ForkliftRouteOptimizer)
    (h : gmap context deque) : ForkliftRouteOptimizer :=
  Engine (route_min self) (route_max self) (tau self) (memory self)
         h (beta_params self).

Definition set_beta_params (self : ForkliftRouteOptimizer)
    (p : gmap context (gmap Z (Z * Z))) : ForkliftRouteOptimizer :=
  Engine (route_min self) (route_max self) (tau self) (memory self)
         (route_history self) p.

(** [__init__] *)
Definition construct (route_min route_max : Z) (tau : R) (memory : Z)
  : result ForkliftRouteOptimizer :=
  _ ← validate_init_params route_min route_max tau memory;
  Ok (Engine route_min route_max tau memory ∅ ∅).

(** The action space [range(route_min, route_max + 1)]. *)
Definition routes (self : ForkliftRouteOptimizer) : list Z :=
  range (route_min self) (route_max self + 1).

(** The block [if context not in self.route_history: ...], which opens
    both [select_route] and [update].  When [deque(...)] raises, nothing
    has been stored yet. *)
Definition ensure_context (self : ForkliftRouteOptimizer) (ctx : context)
  : ForkliftRouteOptimizer * result unit :=
  match route_history self !! ctx with
  | Some _ => (self, Ok tt)
  | None =>
      match deque_new (memory self) with
      | Raise e => (self, Raise e)
      | Ok d =>
          let self := set_route_history self
                        (<[ctx := d]> (route_history self)) in
          (set_beta_params self
             (<[ctx := fresh_counts (route_min self) (route_max self)]>
                (beta_params self)), Ok tt)
      end
  end.

(** [_recompute_betas]: the new dictionary is stored only when the loop
    has run to its end. *)
Definition _recompute_betas (self : ForkliftRouteOptimizer) (ctx : context)
  : ForkliftRouteOptimizer * result unit :=
  let counts := fresh_counts (route_min self) (route_max self) in
  match route_history self !! ctx with
  | None => (self, Raise KeyError)
  | Some d =>
      match count_window counts (items d) with
      | Raise e => (self, Raise e)
      | Ok counts =>
          (set_beta_params self (<[ctx := counts]> (beta_params self)), Ok tt)
      end
  end.

(** The last two statements of [update]:
    [self.route_history[context].append((route, success))] and
    [self._recompute_betas(context)]. *)
Definition record_observation (self : ForkliftRouteOptimizer) (ctx : context)
    (route success : Z) : ForkliftRouteOptimizer * result unit :=
  match route_history self !! ctx with
  | None => (self, Raise KeyError)
  | Some d =>
      let self := set_route_history self
                    (<[ctx := deque_append d (route, success)]>
                       (route_history self)) in
      _recompute_betas self ctx
  end.

(** [update] *)
Definition update (self : ForkliftRouteOptimizer) (zone_id : Zone)
    (task_type : Task) (route success : Z)
  : ForkliftRouteOptimizer * result unit :=
  let ctx := (zone_id, task_type) in
  match ensure_context self ctx with
  | (self, Raise e) => (self, Raise e)
  | (self, Ok _) => record_observation self ctx route success
  end.

(** [get_route_stats] *)
Definition get_route_stats (self : ForkliftRouteOptimizer) (zone_id : Zone)
    (task_type : Task) : gmap Z (Z * Z) :=
  default ∅ (beta_params self !! (zone_id, task_type)).

(** ** Selection *)

(** [np.sum] *)
Definition np_sum (l : list R) : R := foldr Rplus 0%R l.

(** [np.max]: raises on an empty array. *)
Definition np_max (l : list R) : result R :=
  match l with
  | [] =>
      Raise (ValueError
        "zero-size array to reduction operation maximum which has no identity")
  | x :: l => Ok (foldl Rmax x l)
  end.

(** [softmax] *)
Definition softmax (self : ForkliftRouteOptimizer) (values : list R)
  : result (list R) :=
  let scaled := (λ v, v / tau self)%R <$> values in
  m ← np_max scaled;
  let scaled := (λ v, v - m)%R <$> scaled in
  let probs := exp <$> scaled in
  Ok ((λ p, p / np_sum probs)%R <$> probs).

(** The least integer whose conversion to a double overflows. *)
Definition DBL_MAX_OVERFLOW : Z := 2 ^ 1024 - 2 ^ 970.

(** What [np.random.beta(a, b)] demands of every pair of parameters:
    that they are positive, *)
Definition beta_args_ok (params : gmap Z (Z * Z)) : Prop :=
  map_Forall (λ _ ab, 0 < ab.1 ∧ 0 < ab.2) params.

(** and, before that, that they convert to doubles. *)
Definition beta_args_fit (params : gmap Z (Z * Z)) : Prop :=
  map_Forall (λ _ ab, Z.abs ab.1 < DBL_MAX_OVERFLOW ∧
                      Z.abs ab.2 < DBL_MAX_OVERFLOW) params.

(** [select_route]: [select_route self z t self' r] holds when the call
    can leave the engine [self'] and end with [r].  After the opening
    block, [np.random.beta] raises on a pair of parameters it cannot
    take; otherwise the samples go through [softmax] in float64 and
    [np.random.choice] either refuses the probabilities or returns one
    of the keys of the dictionary. *)
Inductive select_route (self : ForkliftRouteOptimizer) (zone_id : Zone)
    (task_type : Task) : ForkliftRouteOptimizer → result Z → Prop :=
| select_route_context_error self' e :
    ensure_context self (zone_id, task_type) = (self', Raise e) →
    select_route self zone_id task_type self' (Raise e)
| select_route_key_error self' :
    ensure_context self (zone_id, task_type) = (self', Ok tt) →
    beta_params self' !! (zone_id, task_type) = None →
    select_route self zone_id task_type self' (Raise KeyError)
| select_route_beta_overflow self' params route a b msg :
    ensure_context self (zone_id, task_type) = (self', Ok tt) →
    beta_params self' !! (zone_id, task_type) = Some params →
    params !! route = Some (a, b) →
    DBL_MAX_OVERFLOW ≤ Z.abs a ∨ DBL_MAX_OVERFLOW ≤ Z.abs b →
    select_route self zone_id task_type self' (Raise (OverflowError msg))
| select_route_beta_error self' params route a b :
    ensure_context self (zone_id, task_type) = (self', Ok tt) →
    beta_params self' !! (zone_id, task_type) = Some params →
    params !! route = Some (a, b) →
    a ≤ 0 ∨ b ≤ 0 →
    select_route self zone_id task_type self'
      (Raise (ValueError (if decide (a ≤ 0) then "a <= 0" else "b <= 0")))
| select_route_empty_error self' :
    ensure_context self (zone_id, task_type) = (self', Ok tt) →
    beta_params self' !! (zone_id, task_type) = Some ∅ →
    select_route self zone_id task_type self'
      (Raise (ValueError
        "zero-size array to reduction operation maximum which has no identity"))
| select_route_choice_error self' params msg :
    ensure_context self (zone_id, task_type) = (self', Ok tt) →
    beta_params self' !! (zone_id, task_type) = Some params →
    beta_args_fit params →
    beta_args_ok params →
    params ≠ ∅ →
    msg = "probabilities contain NaN" ∨ msg = "probabilities do not sum to 1" →
    select_route self zone_id task_type self' (Raise (ValueError msg))
| select_route_choice self' params route :
    ensure_context self (zone_id, task_type) = (self', Ok tt) →
    beta_params self' !! (zone_id, task_type) = Some params →
    beta_args_fit params →
    beta_args_ok params →
    route ∈ (map_to_list params).*1 →
    select_route self zone_id task_type self' (Ok route).

(** ** Histories of calls *)

Inductive call : Type :=
| Select (zone_id : Zone) (task_type : Task)
| Update (zone_id : Zone) (task_type : Task) (route success : Z).

(** One call of the caller, whatever it returns or raises. *)
Inductive exec (self : ForkliftRouteOptimizer)
  : call → ForkliftRouteOptimizer → Prop :=
| exec_select z t self' r :
    select_route self z t self' r → exec self (Select z t) self'
| exec_update z t route success :
    exec self (Update z t route success) (update self z t route success).1.

Inductive run (self : ForkliftRouteOptimizer)
  : list call → ForkliftRouteOptimizer → Prop :=
| run_nil : run self [] self
| run_cons c calls self' self'' :
    exec self c self' → run self' calls self'' → run self (c :: calls) self''.

(** The observations that [calls] record for the context [ctx], oldest
    first. *)
Fixpoint observations (ctx : context) (calls : list call) : list (Z * Z) :=
  match calls with
  | [] => []
  | Select _ _ :: calls => observations ctx calls
  | Update z t route success :: calls =>
      if decide ((z, t) = ctx) then (route, success) :: observations ctx calls
      else observations ctx calls
  end.

(** Whether [calls] mention the context [ctx] at all. *)
Fixpoint referenced (ctx : context) (calls : list call) : bool :=
  match calls with
  | [] => false
  | Select z t :: calls | Update z t _ _ :: calls =>
      bool_decide ((z, t) = ctx) || referenced ctx calls
  end.

(** The window of [ctx] as a list, empty when the context is unknown. *)
Definition window (self : ForkliftRouteOptimizer) (ctx : context) : list (Z * Z) :=
  default [] (items <$> route_history self !! ctx).

(** The caller's contract on one observation. *)
Definition valid_action (self : ForkliftRouteOptimizer) (route : Z) : Prop :=
  route_min self ≤ route ≤ route_max self.

Definition binary (success : Z) : Prop := success = 0 ∨ success = 1.

(** Sum of the recorded outcomes of [route], and of their complements. *)
Definition wins (route : Z) (w : list (Z * Z)) : Z :=
  foldr (λ o acc, if decide (o.1 = route) then o.2 + acc else acc) 0 w.

Definition losses (route : Z) (w : list (Z * Z)) : Z :=
  foldr (λ o acc, if decide (o.1 = route) then (1 - o.2) + acc else acc) 0 w.

(** Number of occurrences of the pair [o] in [w]. *)
Definition occurrences (o : Z * Z) (w : list (Z * Z)) : Z :=
  Z.of_nat (length (filter (λ x, x = o) w)).

(** The engine that the opening block leaves when it does not raise. *)
Definition with_context (self : ForkliftRouteOptimizer) (ctx : context)
  : ForkliftRouteOptimizer :=
  match route_history self !! ctx with
  | Some _ => self
  | None =>
      let self := set_route_history self
                    (<[ctx := Deque (memory self) []]> (route_history self)) in
      set_beta_params self
        (<[ctx := fresh_counts (route_min self) (route_max self)]>
           (beta_params self))
  end.

(** The exception of the opening block, if it raises one. *)
Definition open_error (self : ForkliftRouteOptimizer) (ctx : context)
  : option exn :=
  match route_history self !! ctx with
  | Some _ => None
  | None =>
      match deque_new (memory self) with
      | Raise e => Some e
      | Ok _ => None
      end
  end.

(** [update] when the opening block does not raise. *)
Definition update_ok (self : ForkliftRouteOptimizer) (zone_id : Zone)
    (task_type : Task) (route success : Z)
  : ForkliftRouteOptimizer * result unit :=
  record_observation (with_context self (zone_id, task_type))
    (zone_id, task_type) route success.

(** The deque of [ctx] as [update] finds it after the opening block: the
    stored one, or a new one for an unknown context. *)
Definition deque_of (self : ForkliftRouteOptimizer) (ctx : context) : deque :=
  default (Deque (memory self) []) (route_history self !! ctx).

(** The last [n] items of a list. *)
Definition lastn {A} (n : Z) (l : list A) : list A :=
  drop (length l - Z.to_nat n) l.

(** What every engine built by [construct] and used through its methods
    satisfies. *)
Record engine_inv (self : ForkliftRouteOptimizer) : Prop := {
  inv_routes : route_min self < route_max self;
  inv_tau : (0 < tau self)%R;
  inv_memory : 1 ≤ memory self;
  inv_fits : memory self ≤ PY_SSIZE_T_MAX;
  inv_dom : ∀ ctx,
    is_Some (route_history self !! ctx) ↔ is_Some (beta_params self !! ctx);
  inv_deque : ∀ ctx d, route_history self !! ctx = Some d →
    maxlen d = memory self ∧ Z.of_nat (length (items d)) ≤ memory self;
  inv_keys : ∀ ctx params route, beta_params self !! ctx = Some params →
    is_Some (params !! route) ↔ valid_action self route;
  inv_counts : ∀ ctx d counts, route_history self !! ctx = Some d →
    count_window (fresh_counts (route_min self) (route_max self)) (items d)
    = Ok counts →
    beta_params self !! ctx = Some counts
}.

(** The engine a history of calls leaves behind: [update] is a function,
    and every outcome of [select_route] leaves the same engine. *)
Fixpoint replay (self : ForkliftRouteOptimizer) (calls : list call)
  : ForkliftRouteOptimizer :=
  match calls with
  | [] => self
  | Select z t :: calls => replay (ensure_context self (z, t)).1 calls
  | Update z t route success :: calls =>
      replay (update self z t route success).1 calls
  end.

(** Histories in which every recorded outcome is 0 or 1. *)
Definition binary_outcomes (calls : list call) : Prop :=
  Forall (λ c, match c with
               | Select _ _ => True
               | Update _ _ _ success => binary success
               end) calls.

(** Every stored pair of Beta parameters is acceptable to
    [np.random.beta]. *)
Definition positive_params (self : ForkliftRouteOptimizer) : Prop :=
  ∀ ctx params, beta_params self !! ctx = Some params → beta_args_ok params.

(** Every window holds outcomes 0 or 1 only. *)
Definition binary_windows (self : ForkliftRouteOptimizer) : Prop :=
  ∀ ctx, Forall (λ o, binary o.2) (window self ctx).

End Optimizer.

Arguments ForkliftRouteOptimizer Zone Task {_ _ _ _}.

(** ** A warehouse with named zones and task types *)

(** The engine of the specification's eviction test: actions 1 to 10,
    temperature 2, a window of two observations. *)
Definition warehouse : ForkliftRouteOptimizer string string :=
  Engine 1 10 2 2 ∅ ∅.

(** Three observations for one context, then a look at another one. *)
Definition shift_calls : list (@call string string) :=
  [Update "dock"%string "pallet"%string 3 1;
   Update "dock"%string "pallet"%string 3 0;
   Select "aisle"%string "tote"%string;
   Update "dock"%string "pallet"%string 4 1].

Definition after_shift : ForkliftRouteOptimizer string string :=
  replay warehouse shift_calls.


(** An engine whose window bound is the least integer that does not fit
    a [Py_ssize_t]. *)
Definition oversized : ForkliftRouteOptimizer string string :=
  Engine 1 10 2 (2 ^ 63) ∅ ∅.

(** * Properties *)

Section Properties.
Context {Zone Task : Type} `{Countable Zone} `{Countable Task}.

Implicit Types (self : ForkliftRouteOptimizer Zone Task).
Implicit Types (ctx : Zone * Task) (z : Zone) (tk : Task).
Implicit Types (calls : list (@call Zone Task)).

(** ** The counting loop *)

Lemma fresh_counts_lookup lo hi r :
  fresh_counts lo hi !! r = if decide (lo ≤ r ≤ hi) then Some (1, 1) else None.
Proof.
  unfold fresh_counts, range.
  assert (Hfst : ∀ l : list Z, ((λ r, (r, (1, 1))) <$> l).*1 = l).
  { induction l as [| x l IH]; [done |]. rewrite !fmap_cons. simpl. by rewrite IH. }
  case_decide as Hr.
  - apply elem_of_list_to_map; [rewrite Hfst; apply NoDup_seqZ |].
    apply list_elem_of_fmap. exists r. split; [done |].
    apply elem_of_seqZ. lia.
  - apply not_elem_of_list_to_map. rewrite Hfst.
    intros Hx. apply elem_of_seqZ in Hx. lia.
Qed.

Lemma count_observation_ok counts route success a b :
  counts !! route = Some (a, b) →
  count_observation counts (route, success)
  = Ok (<[route := (a + success, b + (1 - success))]> counts).
Proof.
  intros Hl. unfold count_observation, getitem. rewrite Hl. simpl.
  rewrite lookup_insert_eq. simpl. by rewrite insert_insert_eq.
Qed.

Lemma count_observation_raise counts route success :
  counts !! route = None →
  count_observation counts (route, success) = Raise KeyError.
Proof. intros Hl. unfold count_observation, getitem. by rewrite Hl. Qed.

(** The loop raises exactly when the window holds a route that is not a
    key of the dictionary, and the exception is then a [KeyError]. *)
Lemma count_window_raise counts w :
  Exists (λ o, counts !! o.1 = None) w →
  count_window counts w = Raise KeyError.
Proof.
  revert counts. induction w as [| [route success] w IH]; intros counts Hex.
  - by apply Exists_nil in Hex.
  - cbn [count_window]. destruct (counts !! route) as [[a b] |] eqn:Hl.
    + rewrite (count_observation_ok _ _ _ _ _ Hl). cbn [mbind result_bind].
      apply IH. apply Exists_cons in Hex as [Hhd | Htl].
      * simpl in Hhd. congruence.
      * eapply Exists_impl; [exact Htl |]. intros [r s] Hn. simpl in *.
        destruct (decide (route = r)) as [-> | Hne]; [congruence |].
        by rewrite lookup_insert_ne.
    + by rewrite count_observation_raise.
Qed.

Lemma count_window_ok counts w :
  Forall (λ o, is_Some (counts !! o.1)) w →
  ∃ counts', count_window counts w = Ok counts' ∧
    ∀ route, counts' !! route
             = (λ ab, (ab.1 + wins route w, ab.2 + losses route w))
                 <$> counts !! route.
Proof.
  revert counts. induction w as [| [r s] w IH]; intros counts Hall.
  - exists counts. split; [done |]. intros route. simpl.
    destruct (counts !! route) as [[a b] |]; simpl; [| done].
    f_equal. f_equal; lia.
  - apply Forall_cons in Hall as [[[a b] Hl] Htl]. simpl in Hl.
    cbn [count_window]. rewrite (count_observation_ok _ _ _ _ _ Hl).
    cbn [mbind result_bind].
    destruct (IH (<[r := (a + s, b + (1 - s))]> counts)) as (c' & Hc' & Hlook).
    { eapply Forall_impl; [exact Htl |]. intros [r' s'] Hs. simpl in *.
      destruct (decide (r = r')) as [-> | Hne].
      - rewrite lookup_insert_eq. eauto.
      - by rewrite lookup_insert_ne. }
    exists c'. split; [done |]. intros route. rewrite Hlook.
    destruct (decide (r = route)) as [-> | Hne].
    + rewrite lookup_insert_eq, Hl. simpl. rewrite !decide_True by done.
      f_equal. f_equal; lia.
    + rewrite lookup_insert_ne by done. simpl.
      rewrite !decide_False by done. done.
Qed.

Lemma count_window_cases counts w :
  (Forall (λ o, is_Some (counts !! o.1)) w ∧ ∃ c, count_window counts w = Ok c)
  ∨ (Exists (λ o, counts !! o.1 = None) w ∧ count_window counts w = Raise KeyError).
Proof.
  destruct (decide (Forall (λ o, is_Some (counts !! o.1)) w)) as [Hall | Hn].
  - left. split; [done |]. destruct (count_window_ok _ _ Hall) as (c & Hc & _). eauto.
  - right. apply not_Forall_Exists in Hn; [| apply _].
    assert (Hex : Exists (λ o, counts !! o.1 = None) w).
    { eapply Exists_impl; [exact Hn |]. intros o Ho. simpl in Ho.
      destruct (counts !! o.1); [| done]. exfalso. apply Ho. eauto. }
    split; [done |]. by apply count_window_raise.
Qed.

(** With outcomes in {0, 1} the two sums are numbers of occurrences. *)
Lemma wins_losses_binary route w :
  Forall (λ o, binary o.2) w →
  wins route w = occurrences (route, 1) w ∧
  losses route w = occurrences (route, 0) w.
Proof.
  unfold occurrences. induction w as [| [r s] w IH]; intros Hall; [done |].
  apply Forall_cons in Hall as [Hb Hall]. destruct (IH Hall) as [IHw IHl].
  simpl in Hb. simpl. rewrite IHw, IHl. rewrite !filter_cons.
  destruct (decide (r = route)) as [-> | Hne].
  - destruct Hb as [-> | ->].
    + rewrite decide_False by congruence. rewrite decide_True by done.
      simpl length. lia.
    + rewrite decide_True by done. rewrite decide_False by congruence.
      simpl length. lia.
  - rewrite !decide_False by congruence. done.
Qed.

(** ** What one call does to the registries *)

Lemma with_context_config self ctx :
  route_min (with_context self ctx) = route_min self ∧
  route_max (with_context self ctx) = route_max self ∧
  tau (with_context self ctx) = tau self ∧
  memory (with_context self ctx) = memory self.
Proof. unfold with_context. by destruct (route_history self !! ctx). Qed.

Lemma with_context_history self ctx ctx' :
  route_history (with_context self ctx) !! ctx'
  = if decide (ctx = ctx') then Some (deque_of self ctx)
    else route_history self !! ctx'.
Proof.
  unfold with_context, deque_of.
  destruct (route_history self !! ctx) as [d |] eqn:Hh; simpl.
  - case_decide as Hc; [by subst | done].
  - case_decide as Hc.
    + subst. by rewrite lookup_insert_eq.
    + by rewrite lookup_insert_ne.
Qed.

Lemma with_context_params self ctx ctx' :
  beta_params (with_context self ctx) !! ctx'
  = match route_history self !! ctx with
    | Some _ => beta_params self !! ctx'
    | None =>
        if decide (ctx = ctx')
        then Some (fresh_counts (route_min self) (route_max self))
        else beta_params self !! ctx'
    end.
Proof.
  unfold with_context.
  destruct (route_history self !! ctx) as [d |] eqn:Hh; simpl; [done |].
  case_decide as Hc.
  - subst. by rewrite lookup_insert_eq.
  - by rewrite lookup_insert_ne.
Qed.

Lemma with_context_known self ctx :
  is_Some (route_history self !! ctx) → with_context self ctx = self.
Proof. intros [d Hd]. unfold with_context. by rewrite Hd. Qed.

(** [update_ok], with the two lookups that cannot fail resolved. *)
Lemma update_ok_eq self z t route success :
  update_ok self z t route success
  = let ctx := (z, t) in
    let self1 := with_context self ctx in
    let d := deque_append (deque_of self ctx) (route, success) in
    let self2 := set_route_history self1 (<[ctx := d]> (route_history self1)) in
    match count_window (fresh_counts (route_min self) (route_max self)) (items d) with
    | Ok counts =>
        (set_beta_params self2 (<[ctx := counts]> (beta_params self2)), Ok tt)
    | Raise e => (self2, Raise e)
    end.
Proof.
  unfold update_ok, record_observation. cbv zeta.
  rewrite with_context_history, decide_True by done.
  unfold _recompute_betas. cbv zeta. cbn [route_history set_route_history].
  rewrite lookup_insert_eq.
  cbn [route_min route_max set_route_history].
  destruct (with_context_config self (z, t)) as (-> & -> & _). done.
Qed.

Lemma update_ok_config self z t route success :
  let self' := (update_ok self z t route success).1 in
  route_min self' = route_min self ∧ route_max self' = route_max self ∧
  tau self' = tau self ∧ memory self' = memory self.
Proof.
  rewrite update_ok_eq. cbv zeta.
  destruct (with_context_config self (z, t)) as (H1 & H2 & H3 & H4).
  destruct (count_window _ _); simpl; by rewrite H1, H2, H3, H4.
Qed.

Lemma update_ok_history self z t route success ctx' :
  route_history (update_ok self z t route success).1 !! ctx'
  = if decide ((z, t) = ctx')
    then Some (deque_append (deque_of self (z, t)) (route, success))
    else route_history self !! ctx'.
Proof.
  rewrite update_ok_eq. cbv zeta.
  assert (Hh : (<[(z, t) := deque_append (deque_of self (z, t)) (route, success)]>
                  (route_history (with_context self (z, t)))) !! ctx'
               = if decide ((z, t) = ctx')
                 then Some (deque_append (deque_of self (z, t)) (route, success))
                 else route_history self !! ctx').
  { case_decide as Hc.
    - subst. by rewrite lookup_insert_eq.
    - rewrite lookup_insert_ne by done.
      rewrite with_context_history. by rewrite decide_False. }
  destruct (count_window _ _); simpl; exact Hh.
Qed.

Lemma update_ok_params self z t route success ctx' :
  beta_params (update_ok self z t route success).1 !! ctx'
  = if decide ((z, t) = ctx')
    then match count_window (fresh_counts (route_min self) (route_max self))
                 (items (deque_append (deque_of self (z, t)) (route, success))) with
         | Ok counts => Some counts
         | Raise _ =>
             match route_history self !! (z, t) with
             | Some _ => beta_params self !! (z, t)
             | None => Some (fresh_counts (route_min self) (route_max self))
             end
         end
    else beta_params self !! ctx'.
Proof.
  rewrite update_ok_eq. cbv zeta.
  destruct (count_window _ _) as [c | e]; simpl.
  - case_decide as Hc.
    + subst. by rewrite lookup_insert_eq.
    + rewrite lookup_insert_ne by done. rewrite with_context_params.
      destruct (route_history self !! (z, t)); [done |]. by rewrite decide_False.
  - rewrite with_context_params.
    destruct (route_history self !! (z, t)); case_decide; by subst.
Qed.

Lemma update_ok_result self z t route success :
  (update_ok self z t route success).2
  = match count_window (fresh_counts (route_min self) (route_max self))
            (items (deque_append (deque_of self (z, t)) (route, success))) with
    | Ok _ => Ok tt
    | Raise e => Raise e
    end.
Proof. rewrite update_ok_eq. cbv zeta. by destruct (count_window _ _). Qed.

(** *** The opening block *)

Lemma deque_new_fits (n : Z) :
  0 ≤ n ≤ PY_SSIZE_T_MAX → deque_new n = Ok (Deque n []).
Proof.
  intros Hn. unfold deque_new.
  rewrite (proj2 (Z.ltb_ge n (- PY_SSIZE_T_MAX - 1))) by (unfold PY_SSIZE_T_MAX; lia).
  rewrite (proj2 (Z.ltb_ge PY_SSIZE_T_MAX n)) by lia.
  by rewrite (proj2 (Z.ltb_ge n 0)) by lia.
Qed.

Lemma deque_new_overflow (n : Z) :
  PY_SSIZE_T_MAX < n →
  deque_new n
  = Raise (OverflowError "Python int too large to convert to C ssize_t").
Proof.
  intros Hn. unfold deque_new.
  rewrite (proj2 (Z.ltb_lt PY_SSIZE_T_MAX n)) by lia. by rewrite orb_true_r.
Qed.

Lemma deque_new_ok (n : Z) d :
  deque_new n = Ok d → d = Deque n [] ∧ 0 ≤ n ≤ PY_SSIZE_T_MAX.
Proof.
  unfold deque_new.
  destruct (n <? - PY_SSIZE_T_MAX - 1) eqn:H1; [done |].
  destruct (PY_SSIZE_T_MAX <? n) eqn:H2; [done |].
  destruct (n <? 0) eqn:H3; [done |]. simpl. intros [= <-].
  apply Z.ltb_ge in H2, H3. split; [done | lia].
Qed.

Lemma ensure_context_eq self ctx :
  ensure_context self ctx
  = match open_error self ctx with
    | Some e => (self, Raise e)
    | None => (with_context self ctx, Ok tt)
    end.
Proof.
  unfold ensure_context, open_error, with_context.
  destruct (route_history self !! ctx); [done |].
  destruct (deque_new (memory self)) as [d | e] eqn:Hd; [| done].
  by apply deque_new_ok in Hd as [-> _].
Qed.

Lemma update_eq self z t route success :
  update self z t route success
  = match open_error self (z, t) with
    | Some e => (self, Raise e)
    | None => update_ok self z t route success
    end.
Proof.
  unfold update. cbv zeta. rewrite ensure_context_eq.
  by destruct (open_error self (z, t)).
Qed.

Lemma open_error_known self ctx :
  is_Some (route_history self !! ctx) → open_error self ctx = None.
Proof. intros [d Hd]. unfold open_error. by rewrite Hd. Qed.

Lemma open_error_fits self ctx :
  0 ≤ memory self ≤ PY_SSIZE_T_MAX → open_error self ctx = None.
Proof.
  intros Hm. unfold open_error. rewrite deque_new_fits by done.
  by destruct (route_history self !! ctx).
Qed.

Lemma open_error_overflow self ctx :
  PY_SSIZE_T_MAX < memory self → route_history self !! ctx = None →
  open_error self ctx
  = Some (OverflowError "Python int too large to convert to C ssize_t").
Proof.
  intros Hm Hd. unfold open_error. by rewrite Hd, deque_new_overflow.
Qed.

Lemma open_error_inv self ctx : engine_inv self → open_error self ctx = None.
Proof.
  intros Hinv. apply open_error_fits.
  pose proof (inv_memory _ Hinv). pose proof (inv_fits _ Hinv). lia.
Qed.

Lemma ensure_context_inv self ctx :
  engine_inv self → ensure_context self ctx = (with_context self ctx, Ok tt).
Proof. intros Hinv. by rewrite ensure_context_eq, open_error_inv. Qed.

Lemma update_inv self z t route success :
  engine_inv self →
  update self z t route success = update_ok self z t route success.
Proof. intros Hinv. by rewrite update_eq, open_error_inv. Qed.

(** *** [update] on any engine *)

Lemma update_config self z t route success :
  let self' := (update self z t route success).1 in
  route_min self' = route_min self ∧ route_max self' = route_max self ∧
  tau self' = tau self ∧ memory self' = memory self.
Proof.
  rewrite update_eq. destruct (open_error self (z, t)); [done |].
  apply update_ok_config.
Qed.

Lemma update_other self z t route success ctx :
  (z, t) ≠ ctx →
  route_history (update self z t route success).1 !! ctx
  = route_history self !! ctx ∧
  beta_params (update self z t route success).1 !! ctx
  = beta_params self !! ctx.
Proof.
  intros Hne. rewrite update_eq. destruct (open_error self (z, t)); [done |].
  rewrite update_ok_history, update_ok_params. by rewrite !decide_False.
Qed.

Lemma ensure_context_other self ctx ctx' :
  ctx ≠ ctx' →
  route_history (ensure_context self ctx).1 !! ctx'
  = route_history self !! ctx' ∧
  beta_params (ensure_context self ctx).1 !! ctx'
  = beta_params self !! ctx'.
Proof.
  intros Hne. rewrite ensure_context_eq.
  destruct (open_error self ctx); [done |]. cbn [fst].
  rewrite with_context_history, with_context_params, decide_False by done.
  destruct (route_history self !! ctx); [done |]. by rewrite decide_False.
Qed.

Lemma ensure_context_config self ctx :
  route_min (ensure_context self ctx).1 = route_min self ∧
  route_max (ensure_context self ctx).1 = route_max self ∧
  tau (ensure_context self ctx).1 = tau self ∧
  memory (ensure_context self ctx).1 = memory self.
Proof.
  rewrite ensure_context_eq. destruct (open_error self ctx); [done |].
  apply with_context_config.
Qed.

(** *** The same under the invariant *)

Lemma update_history self z t route success ctx' :
  engine_inv self →
  route_history (update self z t route success).1 !! ctx'
  = if decide ((z, t) = ctx')
    then Some (deque_append (deque_of self (z, t)) (route, success))
    else route_history self !! ctx'.
Proof. intros Hinv. rewrite update_inv by done. apply update_ok_history. Qed.

Lemma update_params self z t route success ctx' :
  engine_inv self →
  beta_params (update self z t route success).1 !! ctx'
  = if decide ((z, t) = ctx')
    then match count_window (fresh_counts (route_min self) (route_max self))
                 (items (deque_append (deque_of self (z, t)) (route, success))) with
         | Ok counts => Some counts
         | Raise _ =>
             match route_history self !! (z, t) with
             | Some _ => beta_params self !! (z, t)
             | None => Some (fresh_counts (route_min self) (route_max self))
             end
         end
    else beta_params self !! ctx'.
Proof. intros Hinv. rewrite update_inv by done. apply update_ok_params. Qed.

Lemma update_result self z t route success :
  engine_inv self →
  (update self z t route success).2
  = match count_window (fresh_counts (route_min self) (route_max self))
            (items (deque_append (deque_of self (z, t)) (route, success))) with
    | Ok _ => Ok tt
    | Raise e => Raise e
    end.
Proof. intros Hinv. rewrite update_inv by done. apply update_ok_result. Qed.

Lemma select_route_ensure self z t self' r :
  select_route self z t self' r → self' = (ensure_context self (z, t)).1.
Proof. destruct 1 as [? ? -> | ? -> | ? ? ? ? ? ? -> | ? ? ? ? ? -> | ? -> | ? ? ? -> | ? ? ? ->]; done. Qed.

Lemma select_route_engine self z t self' r :
  engine_inv self → select_route self z t self' r →
  self' = with_context self (z, t).
Proof.
  intros Hinv Hsel. apply select_route_ensure in Hsel as ->.
  by rewrite ensure_context_inv.
Qed.

(** ** The invariant *)

(** Closes [is_Some o ↔ P] once the option and [P] are decided. *)
Ltac is_some_iff :=
  split; intros ?; first [done | by eauto | by destruct select (is_Some _)].

Lemma construct_ok rmin rmax t m :
  rmin < rmax → (0 < t)%R → 1 ≤ m →
  construct (Zone := Zone) (Task := Task) rmin rmax t m
  = Ok (Engine rmin rmax t m ∅ ∅).
Proof.
  intros Hr Ht Hm. unfold construct, validate_init_params.
  rewrite Z.geb_leb, (proj2 (Z.leb_gt rmax rmin)) by lia.
  destruct (Rle_dec t 0) as [Hle | _]; [lra |].
  by rewrite (proj2 (Z.ltb_ge m 1)) by lia.
Qed.

Lemma construct_inv rmin rmax t m self :
  construct rmin rmax t m = Ok self →
  self = Engine rmin rmax t m ∅ ∅ ∧ rmin < rmax ∧ (0 < t)%R ∧ 1 ≤ m.
Proof.
  unfold construct, validate_init_params. rewrite Z.geb_leb.
  destruct (rmax <=? rmin) eqn:Hr; [done |].
  destruct (Rle_dec t 0) as [Hle | Ht]; [done |].
  destruct (m <? 1) eqn:Hm; [done |]. simpl. intros [= <-].
  apply Z.leb_gt in Hr. apply Z.ltb_ge in Hm. repeat split; [lia | lra | lia].
Qed.

Lemma engine_inv_construct rmin rmax t m self :
  construct rmin rmax t m = Ok self → m ≤ PY_SSIZE_T_MAX → engine_inv self.
Proof.
  intros (-> & Hr & Ht & Hm)%construct_inv Hfit.
  split; simpl; try done.
  - intros ctx. rewrite !lookup_empty. split; intros [? ?]; done.
Qed.

Lemma count_window_keys lo hi w counts route :
  count_window (fresh_counts lo hi) w = Ok counts →
  is_Some (counts !! route) ↔ lo ≤ route ≤ hi.
Proof.
  intros Hc.
  destruct (count_window_cases (fresh_counts lo hi) w) as [[Hall _] | [_ Hr]];
    [| congruence].
  destruct (count_window_ok _ _ Hall) as (c' & Hc' & Hl).
  assert (c' = counts) as -> by congruence.
  rewrite Hl, fresh_counts_lookup. case_decide; simpl; is_some_iff.
Qed.

Lemma deque_append_items d x :
  0 ≤ maxlen d → Z.of_nat (length (items d)) ≤ maxlen d →
  items (deque_append d x) = lastn (maxlen d) (items d ++ [x]).
Proof.
  intros Hm Hlen. unfold deque_append, lastn. cbn [items].
  rewrite length_app. simpl length.
  destruct (maxlen d <? Z.of_nat (length (items d) + 1)) eqn:Hlt.
  - apply Z.ltb_lt in Hlt.
    replace (length (items d) + 1 - Z.to_nat (maxlen d))%nat with 1%nat by lia.
    by destruct (items d ++ [x]).
  - apply Z.ltb_ge in Hlt.
    replace (length (items d) + 1 - Z.to_nat (maxlen d))%nat with 0%nat by lia.
    done.
Qed.

Lemma deque_append_length d x :
  1 ≤ maxlen d → Z.of_nat (length (items d)) ≤ maxlen d →
  Z.of_nat (length (items (deque_append d x))) ≤ maxlen d.
Proof.
  intros Hm Hlen. rewrite deque_append_items by lia. unfold lastn.
  rewrite length_drop, length_app. simpl length. lia.
Qed.

Lemma deque_of_inv self ctx :
  engine_inv self →
  maxlen (deque_of self ctx) = memory self ∧
  Z.of_nat (length (items (deque_of self ctx))) ≤ memory self.
Proof.
  intros Hinv. unfold deque_of.
  destruct (route_history self !! ctx) as [d |] eqn:Hd; simpl.
  - by apply (inv_deque _ Hinv ctx).
  - pose proof (inv_memory _ Hinv). lia.
Qed.

Lemma engine_inv_with_context self ctx :
  engine_inv self → engine_inv (with_context self ctx).
Proof.
  intros Hinv.
  destruct (route_history self !! ctx) as [d |] eqn:Hd.
  { rewrite with_context_known; eauto. }
  destruct (with_context_config self ctx) as (H1 & H2 & H3 & H4).
  split; rewrite ?H1, ?H2, ?H3, ?H4; try apply Hinv.
  - intros c. rewrite with_context_history, with_context_params, Hd.
    case_decide; [split; eauto | apply Hinv].
  - intros c d'. rewrite with_context_history. case_decide.
    + intros [= <-]. unfold deque_of. rewrite Hd. simpl.
      pose proof (inv_memory _ Hinv). lia.
    + apply Hinv.
  - intros c params route. unfold valid_action.
    rewrite with_context_params, Hd, H1, H2. case_decide.
    + intros [= <-]. rewrite fresh_counts_lookup.
      case_decide; is_some_iff.
    + apply Hinv.
  - intros c d' counts. rewrite with_context_history, with_context_params, Hd.
    case_decide.
    + intros [= <-]. unfold deque_of. rewrite Hd. simpl. by intros [= <-].
    + apply Hinv.
Qed.

Lemma engine_inv_update self z t route success :
  engine_inv self → engine_inv (update self z t route success).1.
Proof.
  intros Hinv.
  destruct (update_config self z t route success) as (H1 & H2 & H3 & H4).
  destruct (deque_of_inv self (z, t) Hinv) as [Hmax Hlen].
  pose proof (inv_memory _ Hinv) as Hmem.
  split; rewrite ?H1, ?H2, ?H3, ?H4; try apply Hinv.
  - intros c. rewrite update_history, update_params by done. case_decide.
    + split; intros _; [| by eauto].
      destruct (count_window _ _); [by eauto |].
      destruct (route_history self !! (z, t)) eqn:Hd; [| by eauto].
      apply Hinv. eauto.
    + apply Hinv.
  - intros c d. rewrite update_history by done. case_decide.
    + intros [= <-]. split; [done |].
      rewrite <- Hmax. apply deque_append_length; lia.
    + apply Hinv.
  - intros c params r. unfold valid_action.
    rewrite update_params, H1, H2 by done. case_decide.
    + destruct (count_window _ _) eqn:Hc.
      * intros [= <-]. by eapply count_window_keys.
      * destruct (route_history self !! (z, t)) eqn:Hd.
        -- apply Hinv.
        -- intros [= <-]. rewrite fresh_counts_lookup.
           case_decide; is_some_iff.
    + apply Hinv.
  - intros c d counts. rewrite update_history, update_params by done. case_decide.
    + intros [= <-] Hc. by rewrite Hc.
    + apply Hinv.
Qed.

Lemma engine_inv_exec self c self' :
  engine_inv self → exec self c self' → engine_inv self'.
Proof.
  intros Hinv [z t s' r Hsel | z t route success].
  - apply (select_route_engine _ _ _ _ _ Hinv) in Hsel as ->. by apply engine_inv_with_context.
  - by apply engine_inv_update.
Qed.

Lemma engine_inv_run self calls self' :
  engine_inv self → run self calls self' → engine_inv self'.
Proof.
  intros Hinv Hrun. induction Hrun as [| self c calls self' self'' Hex _ IH]; [done |].
  apply IH. by eapply engine_inv_exec.
Qed.

Lemma exec_config self c self' :
  exec self c self' →
  route_min self' = route_min self ∧ route_max self' = route_max self ∧
  tau self' = tau self ∧ memory self' = memory self.
Proof.
  intros [z t s' r Hsel | z t route success].
  - apply select_route_ensure in Hsel as ->. apply ensure_context_config.
  - apply update_config.
Qed.

Lemma run_config self calls self' :
  run self calls self' →
  route_min self' = route_min self ∧ route_max self' = route_max self ∧
  tau self' = tau self ∧ memory self' = memory self.
Proof.
  induction 1 as [| self c calls self' self'' Hex _ IH]; [done |].
  destruct (exec_config _ _ _ Hex) as (H1 & H2 & H3 & H4).
  destruct IH as (I1 & I2 & I3 & I4). repeat split; congruence.
Qed.

(** ** Softmax over the reals *)

Local Open Scope R_scope.

Lemma np_sum_fmap_le {A} (f g : A → R) (l : list A) :
  (∀ x, x ∈ l → f x <= g x) → np_sum (f <$> l) <= np_sum (g <$> l).
Proof.
  induction l as [| a l IH]; intros Hle; [apply Rle_refl |].
  rewrite !fmap_cons. cbn [np_sum foldr]. fold (np_sum (f <$> l)) (np_sum (g <$> l)).
  pose proof (Hle a (list_elem_of_here _ _)).
  assert (np_sum (f <$> l) <= np_sum (g <$> l)).
  { apply IH. intros x Hx. apply Hle. by apply list_elem_of_further. }
  lra.
Qed.

Lemma np_sum_fmap_lt {A} (f g : A → R) (l : list A) :
  (∀ x, x ∈ l → f x <= g x) → (∃ x, x ∈ l ∧ f x < g x) →
  np_sum (f <$> l) < np_sum (g <$> l).
Proof.
  induction l as [| a l IH]; intros Hle (x & Hx & Hlt).
  - by apply not_elem_of_nil in Hx.
  - pose proof (Hle a (list_elem_of_here _ _)) as Ha.
    assert (Hl : ∀ y, y ∈ l → f y <= g y).
    { intros y Hy. apply Hle. by apply list_elem_of_further. }
    pose proof (np_sum_fmap_le f g l Hl) as Hsum.
    rewrite !fmap_cons. cbn [np_sum foldr]. fold (np_sum (f <$> l)) (np_sum (g <$> l)).
    apply elem_of_cons in Hx as [-> | Hx]; [lra |].
    assert (np_sum (f <$> l) < np_sum (g <$> l)) by (apply IH; eauto).
    lra.
Qed.

Lemma np_sum_fmap_pos {A} (f : A → R) (l : list A) :
  l ≠ [] → (∀ x, 0 < f x) → 0 < np_sum (f <$> l).
Proof.
  intros Hne Hpos. destruct l as [| a l]; [done |].
  rewrite fmap_cons. cbn [np_sum foldr]. fold (np_sum (f <$> l)).
  pose proof (Hpos a).
  assert (0 <= np_sum (f <$> l)).
  { clear -Hpos. induction l as [| b l IH]; [apply Rle_refl |].
    rewrite fmap_cons. cbn [np_sum foldr]. fold (np_sum (f <$> l)).
    pose proof (Hpos b). lra. }
  lra.
Qed.

Lemma np_sum_fmap_scale {A} (f : A → R) (c : R) (l : list A) :
  np_sum ((λ x, f x * c) <$> l) = np_sum (f <$> l) * c.
Proof.
  induction l as [| a l IH]; [cbn; lra |].
  rewrite !fmap_cons. cbn [np_sum foldr].
  fold (np_sum ((λ x, f x * c) <$> l)) (np_sum (f <$> l)). rewrite IH. lra.
Qed.

Lemma np_sum_app (l1 l2 : list R) :
  np_sum (l1 ++ l2) = np_sum l1 + np_sum l2.
Proof.
  induction l1 as [| a l1 IH]; [cbn [app]; unfold np_sum at 2; cbn [foldr]; lra |].
  cbn [app np_sum foldr]. fold (np_sum (l1 ++ l2)) (np_sum l1). rewrite IH. lra.
Qed.

Lemma foldl_Rmax_shift (c x : R) (l : list R) :
  foldl Rmax (x + c) ((λ v, v + c) <$> l) = foldl Rmax x l + c.
Proof.
  revert x. induction l as [| a l IH]; intros x; [done |].
  rewrite fmap_cons. cbn [foldl]. rewrite <- IH. f_equal.
  unfold Rmax. destruct (Rle_dec (x + c) (a + c)), (Rle_dec x a); lra.
Qed.

(** The value [softmax] returns: every entry is the exponential of the
    scaled and shifted input over the sum of these exponentials. *)
Lemma softmax_ok self values :
  values ≠ [] →
  ∃ m, np_max ((λ v, v / tau self) <$> values) = Ok m ∧
    softmax self values
    = Ok ((λ v, exp (v / tau self - m)
                / np_sum ((λ v, exp (v / tau self - m)) <$> values))
            <$> values).
Proof.
  intros Hne. destruct values as [| x l]; [done |].
  unfold softmax. set (vs := x :: l).
  assert (Hm : ∃ m, np_max ((λ v, v / tau self) <$> vs) = Ok m) by (simpl; eauto).
  destruct Hm as [m Hm]. exists m. split; [done |]. rewrite Hm.
  cbn [mbind result_bind]. f_equal.
  rewrite <- !list_fmap_compose. done.
Qed.

(** Entry by entry, the maximum that is subtracted cancels. *)
Lemma softmax_lookup self values i vi :
  values !! i = Some vi →
  ∃ probs, softmax self values = Ok probs ∧ length probs = length values ∧
    probs !! i
    = Some (/ np_sum ((λ v, exp ((v - vi) / tau self)) <$> values)).
Proof.
  intros Hi.
  assert (Hne : values ≠ []) by (intros ->; done).
  destruct (softmax_ok self values Hne) as (m & _ & Hs).
  eexists. split; [exact Hs |]. split; [by rewrite length_fmap |].
  rewrite list_lookup_fmap, Hi. simpl. f_equal.
  set (S := np_sum ((λ v, exp (v / tau self - m)) <$> values)).
  assert (HS : S = np_sum ((λ v, exp ((v - vi) / tau self)) <$> values)
               * exp (vi / tau self - m)).
  { unfold S. rewrite <- np_sum_fmap_scale. f_equal.
    apply list_fmap_ext. intros _ v _. rewrite <- exp_plus. f_equal.
    unfold Rdiv. lra. }
  pose proof (exp_pos (vi / tau self - m)) as He.
  assert (Hpos : 0 < np_sum ((λ v, exp ((v - vi) / tau self)) <$> values)).
  { apply np_sum_fmap_pos; [done |]. intros v. apply exp_pos. }
  rewrite HS. field. lra.
Qed.

Lemma softmax_distribution self values :
  values ≠ [] →
  ∃ probs, softmax self values = Ok probs ∧ length probs = length values ∧
    Forall (λ p, 0 < p) probs ∧ np_sum probs = 1.
Proof.
  intros Hne. destruct (softmax_ok self values Hne) as (m & _ & Hs).
  eexists. split; [exact Hs |].
  set (S := np_sum ((λ v, exp (v / tau self - m)) <$> values)).
  assert (HS : 0 < S).
  { apply np_sum_fmap_pos; [done |]. intros v. apply exp_pos. }
  split; [by rewrite length_fmap |]. split.
  - apply Forall_fmap, Forall_forall. intros v _. simpl.
    apply Rdiv_lt_0_compat; [apply exp_pos | done].
  - unfold Rdiv.
    rewrite (np_sum_fmap_scale (λ v, exp (v * / tau self - m)) (/ S)).
    fold S. unfold Rdiv in S. fold S. field. lra.
Qed.

Lemma softmax_shift self values c :
  softmax self ((λ v, v + c) <$> values) = softmax self values.
Proof.
  destruct values as [| x l]; [done |].
  unfold softmax. rewrite !fmap_cons. cbn [np_max mbind result_bind]. f_equal.
  set (m := foldl Rmax (x / tau self) ((λ v, v / tau self) <$> l)).
  assert (Hm : foldl Rmax ((x + c) / tau self)
                 ((λ v, v / tau self) <$> ((λ v, v + c) <$> l))
               = m + c / tau self).
  { unfold m. rewrite <- foldl_Rmax_shift. rewrite <- !list_fmap_compose.
    f_equal; [unfold Rdiv; lra |].
    apply list_fmap_ext. intros _ v _. simpl. unfold Rdiv. lra. }
  rewrite Hm.
  assert (Hexp : exp <$> ((λ v, v - (m + c / tau self))
                   <$> ((x + c) / tau self
                        :: ((λ v, v / tau self) <$> ((λ v, v + c) <$> l))))
                 = exp <$> ((λ v, v - m)
                   <$> (x / tau self :: ((λ v, v / tau self) <$> l)))).
  { rewrite !fmap_cons. f_equal; [f_equal; unfold Rdiv; lra |].
    rewrite <- !list_fmap_compose. apply list_fmap_ext. intros _ v _. simpl.
    f_equal. unfold Rdiv. lra. }
  by rewrite Hexp.
Qed.

Lemma exp_scaled_mono (d t1 t2 : R) :
  d <= 0 → 0 < t1 < t2 → exp (d / t1) <= exp (d / t2).
Proof.
  intros Hd [H1 H2].
  assert (Hinv : / t2 < / t1).
  { apply Rinv_lt_contravar; [apply Rmult_lt_0_compat; lra | lra]. }
  assert (Hle : d / t1 <= d / t2).
  { unfold Rdiv. nra. }
  destruct Hle as [Hlt | ->]; [left; by apply exp_increasing | apply Rle_refl].
Qed.

Lemma exp_scaled_strict_mono (d t1 t2 : R) :
  d < 0 → 0 < t1 < t2 → exp (d / t1) < exp (d / t2).
Proof.
  intros Hd [H1 H2]. apply exp_increasing.
  assert (Hinv : / t2 < / t1).
  { apply Rinv_lt_contravar; [apply Rmult_lt_0_compat; lra | lra]. }
  unfold Rdiv. nra.
Qed.

Lemma exp_scaled_bound (x vi t : R) :
  x < vi → 0 < t → exp ((x - vi) / t) <= / (vi - x) * t.
Proof.
  intros Hx Ht.
  set (y := (vi - x) / t).
  assert (Hy : 0 < y) by (apply Rdiv_lt_0_compat; lra).
  replace ((x - vi) / t) with (- y) by (unfold y, Rdiv; lra).
  replace (/ (vi - x) * t) with (/ y) by (unfold y; field; lra).
  rewrite exp_Ropp. left. apply Rinv_lt_contravar.
  - apply Rmult_lt_0_compat; [done | apply exp_pos].
  - pose proof (exp_ineq1 y). lra.
Qed.

(** The sum of the exponentials when one sample [vi] is strictly above
    all the others: the entry of [vi] gives 1, the rest is positive and
    at most linear in the temperature. *)
Lemma dominant_sum_bounds (l1 l2 : list R) (vi : R) :
  Forall (λ x, x < vi) (l1 ++ l2) →
  ∃ C, 0 <= C ∧ ∀ t, 0 < t →
    1 <= np_sum ((λ v, exp ((v - vi) / t)) <$> (l1 ++ vi :: l2)) <= 1 + C * t.
Proof.
  intros Hlt.
  exists (np_sum ((λ x, / (vi - x)) <$> (l1 ++ l2))).
  assert (Hsplit : ∀ t,
    np_sum ((λ v, exp ((v - vi) / t)) <$> (l1 ++ vi :: l2))
    = 1 + np_sum ((λ v, exp ((v - vi) / t)) <$> (l1 ++ l2))).
  { intros t. rewrite !fmap_app, fmap_cons, !np_sum_app.
    cbn [np_sum foldr]. fold (np_sum ((λ v, exp ((v - vi) / t)) <$> l2)).
    replace ((vi - vi) / t) with 0 by (unfold Rdiv; lra). rewrite exp_0. lra. }
  split.
  - replace 0 with (np_sum ((λ _ : R, 0) <$> (l1 ++ l2))).
    + apply np_sum_fmap_le. intros x Hx.
      rewrite Forall_forall in Hlt. specialize (Hlt x Hx). simpl in Hlt.
      left. apply Rinv_0_lt_compat. lra.
    + generalize (l1 ++ l2). intros l. induction l as [| a l IH]; [done |].
      rewrite fmap_cons. cbn [np_sum foldr]. fold (np_sum ((λ _ : R, 0) <$> l)).
      rewrite IH. lra.
  - intros t Ht. rewrite Hsplit. split.
    + assert (0 <= np_sum ((λ v, exp ((v - vi) / t)) <$> (l1 ++ l2))); [| lra].
      generalize (l1 ++ l2). intros l. induction l as [| a l IH]; [apply Rle_refl |].
      rewrite fmap_cons. cbn [np_sum foldr].
      fold (np_sum ((λ v, exp ((v - vi) / t)) <$> l)).
      pose proof (exp_pos ((a - vi) / t)). lra.
    + rewrite <- np_sum_fmap_scale.
      apply Rplus_le_compat_l, np_sum_fmap_le. intros x Hx.
      rewrite Forall_forall in Hlt. specialize (Hlt x Hx). simpl in Hlt.
      by apply exp_scaled_bound.
Qed.

Lemma dominant_split (values : list R) (i : nat) (vi : R) :
  values !! i = Some vi →
  (∀ j v, j ≠ i → values !! j = Some v → v < vi) →
  values = take i values ++ vi :: drop (S i) values ∧
  Forall (λ x, x < vi) (take i values ++ drop (S i) values).
Proof.
  intros Hi Hmax. split; [by rewrite take_drop_middle |].
  apply Forall_app. split; apply Forall_forall; intros x Hx.
  - apply list_elem_of_lookup in Hx as [j Hj].
    pose proof (lookup_lt_Some _ _ _ Hj) as Hlen. rewrite length_take in Hlen.
    rewrite lookup_take_lt in Hj by lia. apply (Hmax j); [lia | done].
  - apply list_elem_of_lookup in Hx as [j Hj]. rewrite lookup_drop in Hj.
    apply (Hmax (S i + j)%nat); [lia | done].
Qed.

Local Close Scope R_scope.

(** ** Properties of the softmax *)

(** C7: for every non-empty vector of sampled values and every positive
    temperature, [softmax] returns a vector of the same length whose
    entries are nonnegative and sum to 1, and adding one constant to every
    input leaves the returned vector unchanged. *)
Theorem softmax_distribution_shift_invariant self (values : list R) (c : R) :
  (0 < tau self)%R → values ≠ [] →
  ∃ probs, softmax self values = Ok probs ∧
    length probs = length values ∧
    Forall (λ p, 0 <= p)%R probs ∧
    np_sum probs = 1%R ∧
    softmax self ((λ v, v + c)%R <$> values) = Ok probs.
Proof.
  intros _ Hne.
  destruct (softmax_distribution self values Hne) as (probs & Hs & Hlen & Hpos & Hsum).
  exists probs. repeat split; try done.
  - eapply Forall_impl; [exact Hpos |]. intros p Hp. simpl in *. lra.
  - by rewrite softmax_shift.
Qed.

(** Over the real numbers, for a vector of at least two entries: when
    one value is strictly greater than all the others, the probability
    that the real-valued [softmax] gives it is strictly greater at the
    lower of any two positive temperatures, and is as close to 1 as
    wished, never above 1, for all temperatures small enough.  This is a
    fact about the real function only: evaluated in float64 the
    probability reaches 1 at small temperatures and stays there. *)
Lemma softmax_temperature_monotone (values : list R) (i : nat) (vi : R) :
  values !! i = Some vi →
  (∀ j v, j ≠ i → values !! j = Some v → (v < vi)%R) →
  (2 ≤ length values)%nat →
  (∀ self1 self2 : ForkliftRouteOptimizer Zone Task,
     (0 < tau self1 < tau self2)%R →
     ∃ probs1 probs2 p1 p2,
       softmax self1 values = Ok probs1 ∧ softmax self2 values = Ok probs2 ∧
       probs1 !! i = Some p1 ∧ probs2 !! i = Some p2 ∧ (p2 < p1)%R) ∧
  (∀ eps : R, (0 < eps)%R →
     ∃ delta : R, (0 < delta)%R ∧
       ∀ self : ForkliftRouteOptimizer Zone Task, (0 < tau self < delta)%R →
         ∃ probs p, softmax self values = Ok probs ∧ probs !! i = Some p ∧
           (1 - eps < p <= 1)%R).
Proof.
  intros Hi Hmax Hlen.
  destruct (dominant_split values i vi Hi Hmax) as [Hsplit Hlt].
  assert (Hne : values ≠ []) by (intros ->; done).
  split.
  - intros self1 self2 Htau.
    destruct (softmax_lookup self1 values i vi Hi) as (probs1 & Hs1 & _ & Hp1).
    destruct (softmax_lookup self2 values i vi Hi) as (probs2 & Hs2 & _ & Hp2).
    do 4 eexists. repeat split; try done.
    assert (Hother : ∃ j v, j ≠ i ∧ values !! j = Some v).
    { destruct (decide (i = 0%nat)) as [-> | Hi0].
      - destruct (lookup_lt_is_Some_2 values 1) as [v Hv]; [lia |]. eauto.
      - destruct (lookup_lt_is_Some_2 values 0) as [v Hv]; [lia |]. eauto. }
    destruct Hother as (j & v & Hji & Hv).
    apply Rinv_lt_contravar.
    + apply Rmult_lt_0_compat; apply np_sum_fmap_pos; try done;
        intros x; apply exp_pos.
    + apply np_sum_fmap_lt.
      * intros x Hx. apply exp_scaled_mono; [| done].
        apply list_elem_of_lookup in Hx as [k Hk].
        destruct (decide (k = i)) as [-> | Hki].
        -- assert (x = vi) as -> by congruence. lra.
        -- pose proof (Hmax k x Hki Hk). lra.
      * exists v. split; [by eapply list_elem_of_lookup_2 |].
        apply exp_scaled_strict_mono; [| done].
        pose proof (Hmax j v Hji Hv). lra.
  - intros eps Heps.
    destruct (dominant_sum_bounds _ _ _ Hlt) as (C & HC & Hbound).
    rewrite <- Hsplit in Hbound.
    exists (eps / (C + 1))%R. split; [apply Rdiv_lt_0_compat; lra |].
    intros self [Ht Hdelta].
    destruct (softmax_lookup self values i vi Hi) as (probs & Hs & _ & Hp).
    do 2 eexists. split; [exact Hs |]. split; [exact Hp |].
    set (S := np_sum ((λ v, exp ((v - vi) / tau self)) <$> values)) in *.
    destruct (Hbound (tau self) Ht) as [HS1 HS2]. fold S in HS1, HS2.
    assert (Hy : (C * tau self < eps)%R).
    { assert (tau self * (C + 1) < eps)%R.
      { apply (Rmult_lt_compat_r (C + 1)) in Hdelta; [| lra].
        replace (eps / (C + 1) * (C + 1))%R with eps in Hdelta by (field; lra).
        done. }
      nra. }
    assert (Hq : (/ S * S = 1)%R) by (field; lra).
    assert (Hqpos : (0 < / S)%R) by (apply Rinv_0_lt_compat; lra).
    split.
    + destruct (Rlt_le_dec (1 - eps) (/ S)) as [Hdone | Hcontra]; [done |].
      exfalso. nra.
    + nra.
Qed.

(** ** Windows along a history of calls *)

Lemma lastn_app_lastn {A} (m : Z) (l l' : list A) :
  lastn m (lastn m l ++ l') = lastn m (l ++ l').
Proof.
  unfold lastn. rewrite <- (drop_app_le l l') by lia.
  rewrite drop_drop. f_equal. rewrite length_drop, !length_app. lia.
Qed.

Lemma lastn_all {A} (m : Z) (l : list A) :
  Z.of_nat (length l) ≤ m → lastn m l = l.
Proof.
  intros Hlen. unfold lastn.
  replace (length l - Z.to_nat m)%nat with 0%nat by lia. done.
Qed.

Lemma lastn_length {A} (m : Z) (l : list A) :
  0 ≤ m → Z.of_nat (length (lastn m l)) = Z.min (Z.of_nat (length l)) m.
Proof. intros Hm. unfold lastn. rewrite length_drop. lia. Qed.

Lemma Forall_lastn {A} (P : A → Prop) (m : Z) (l : list A) :
  Forall P l → Forall P (lastn m l).
Proof. apply Forall_drop. Qed.

Lemma window_deque_of self ctx : items (deque_of self ctx) = window self ctx.
Proof. unfold deque_of, window. by destruct (route_history self !! ctx). Qed.

Lemma window_length self ctx :
  engine_inv self → Z.of_nat (length (window self ctx)) ≤ memory self.
Proof. intros Hinv. rewrite <- window_deque_of. by apply deque_of_inv. Qed.

Lemma window_with_context self ctx ctx' :
  window (with_context self ctx) ctx' = window self ctx'.
Proof.
  unfold window. rewrite with_context_history. case_decide; [| done].
  subst. unfold deque_of. by destruct (route_history self !! ctx').
Qed.

Lemma window_update self z t route success ctx :
  engine_inv self →
  window (update self z t route success).1 ctx
  = if decide ((z, t) = ctx)
    then lastn (memory self) (window self ctx ++ [(route, success)])
    else window self ctx.
Proof.
  intros Hinv. unfold window at 1. rewrite update_history by done.
  case_decide as Hc; [| done]. subst.
  change (items (deque_append (deque_of self (z, t)) (route, success))
          = lastn (memory self) (window self (z, t) ++ [(route, success)])).
  destruct (deque_of_inv self (z, t) Hinv) as [Hmax Hlen].
  pose proof (inv_memory _ Hinv).
  rewrite deque_append_items by lia. by rewrite Hmax, window_deque_of.
Qed.

Lemma window_exec self c self' ctx :
  engine_inv self → exec self c self' →
  window self' ctx
  = lastn (memory self) (window self ctx ++ observations ctx [c]).
Proof.
  intros Hinv [z t s' r Hsel | z t route success]; cbn [observations].
  - apply (select_route_engine _ _ _ _ _ Hinv) in Hsel as ->.
    rewrite window_with_context, app_nil_r.
    symmetry. apply lastn_all. by apply window_length.
  - rewrite window_update by done. case_decide; [done |].
    rewrite app_nil_r. symmetry. apply lastn_all. by apply window_length.
Qed.

Lemma observations_cons ctx c calls :
  observations ctx (c :: calls) = observations ctx [c] ++ observations ctx calls.
Proof. destruct c; cbn [observations]; [done |]. by case_decide. Qed.

(** The window after a history of calls holds the last [memory]
    observations of what it held before followed by what the calls
    recorded for the context. *)
Lemma window_run self calls self' ctx :
  engine_inv self → run self calls self' →
  window self' ctx
  = lastn (memory self) (window self ctx ++ observations ctx calls).
Proof.
  intros Hinv Hrun. revert Hinv.
  induction Hrun as [| self c calls self' self'' Hex _ IH]; intros Hinv.
  - cbn [observations]. rewrite app_nil_r. symmetry. apply lastn_all.
    by apply window_length.
  - rewrite IH by (by eapply engine_inv_exec).
    destruct (exec_config _ _ _ Hex) as (_ & _ & _ & ->).
    rewrite (window_exec _ _ _ _ Hinv Hex), lastn_app_lastn.
    by rewrite (observations_cons ctx c calls), app_assoc.
Qed.

Lemma known_exec self c self' ctx :
  engine_inv self →
  exec self c self' →
  is_Some (route_history self !! ctx) ∨ referenced ctx [c] = true →
  is_Some (route_history self' !! ctx).
Proof.
  intros Hinv [z t s' r Hsel | z t route success]; cbn [referenced];
    rewrite orb_false_r, bool_decide_eq_true.
  - apply (select_route_engine _ _ _ _ _ Hinv) in Hsel as ->. rewrite with_context_history.
    case_decide; [by eauto |]. by intros [? | ?].
  - rewrite update_history by done. case_decide; [by eauto |]. by intros [? | ?].
Qed.

Lemma known_run self calls self' ctx :
  engine_inv self →
  run self calls self' →
  is_Some (route_history self !! ctx) ∨ referenced ctx calls = true →
  is_Some (route_history self' !! ctx).
Proof.
  intros Hinv Hrun. revert Hinv.
  induction Hrun as [| self c calls self' self'' Hex _ IH]; intros Hinv Hk.
  - destruct Hk as [? | ?]; done.
  - apply IH; [by eapply engine_inv_exec |]. destruct Hk as [Hk | Hk].
    + left. eapply known_exec; eauto.
    + assert (Hc : referenced ctx [c] = true ∨ referenced ctx calls = true).
      { destruct c; cbn [referenced] in *; rewrite orb_false_r;
          by apply orb_true_iff in Hk. }
      destruct Hc as [Hc | Hc]; [left; eapply known_exec; eauto | by right].
Qed.

(** ** Statistics of a window *)

Lemma stats_of_window self z t :
  engine_inv self →
  is_Some (route_history self !! (z, t)) →
  Forall (λ o, valid_action self o.1) (window self (z, t)) →
  ∃ counts,
    count_window (fresh_counts (route_min self) (route_max self))
      (window self (z, t)) = Ok counts ∧
    get_route_stats self z t = counts ∧
    ∀ route, valid_action self route →
      counts !! route
      = Some (1 + wins route (window self (z, t)),
              1 + losses route (window self (z, t))).
Proof.
  intros Hinv [d Hd] Hvalid.
  assert (Hw : window self (z, t) = items d) by (unfold window; by rewrite Hd).
  destruct (count_window_ok (fresh_counts (route_min self) (route_max self))
              (window self (z, t))) as (counts & Hc & Hl).
  { eapply Forall_impl; [exact Hvalid |]. intros o Ho. simpl in *.
    rewrite fresh_counts_lookup. rewrite decide_True by exact Ho. eauto. }
  exists counts. split; [done |]. split.
  - unfold get_route_stats. rewrite Hw in Hc.
    by rewrite (inv_counts _ Hinv _ _ _ Hd Hc).
  - intros route Hr. rewrite Hl, fresh_counts_lookup.
    by rewrite decide_True by exact Hr.
Qed.

(** [update] raises exactly when the window it leaves holds an action
    outside the action space. *)
Lemma update_raises_iff self z t route success :
  engine_inv self →
  let w := window (update self z t route success).1 (z, t) in
  (Forall (λ o, valid_action self o.1) w ∧
   (update self z t route success).2 = Ok tt)
  ∨ (Exists (λ o, ¬ valid_action self o.1) w ∧
     (update self z t route success).2 = Raise KeyError).
Proof.
  intros Hinv w. subst w. unfold window. rewrite update_history, update_result by done.
  rewrite decide_True by done.
  change (default [] (items <$> Some ?d)) with (items d).
  set (w := items (deque_append (deque_of self (z, t)) (route, success))).
  destruct (count_window_cases (fresh_counts (route_min self) (route_max self)) w)
    as [[Hall [c Hc]] | [Hex Hr]].
  - left. rewrite Hc. split; [| done].
    eapply Forall_impl; [exact Hall |]. intros o. simpl.
    rewrite fresh_counts_lookup. case_decide; [done |]. by intros [? ?].
  - right. rewrite Hr. split; [| done].
    eapply Exists_impl; [exact Hex |]. intros o. simpl.
    rewrite fresh_counts_lookup. by case_decide.
Qed.

(** ** Selection on a well-formed engine *)

Lemma fresh_counts_args_ok lo hi : beta_args_ok (fresh_counts lo hi).
Proof.
  intros route ab. rewrite fresh_counts_lookup.
  case_decide; [| done]. intros [= <-]. simpl. lia.
Qed.





(** In the model every call of [select_route] has an outcome. *)
Lemma select_route_total self z t :
  ∃ r, select_route self z t (ensure_context self (z, t)).1 r.
Proof.
  destruct (ensure_context self (z, t)) as [self' [[] | e]] eqn:Hens; simpl;
    [| eexists; by apply select_route_context_error].
  destruct (beta_params self' !! (z, t)) as [params |] eqn:Hp;
    [| eexists; by apply select_route_key_error].
  destruct (decide (beta_args_fit params)) as [Hfit | Hbig].
  - destruct (decide (beta_args_ok params)) as [Hok | Hbad].
    + destruct (decide (params = ∅)) as [-> | Hne].
      * eexists. by apply select_route_empty_error.
      * eexists.
        apply (select_route_choice_error self z t self' params
                 "probabilities contain NaN"); eauto.
    + apply map_not_Forall in Hbad; [| apply _].
      destruct Hbad as (route & [a b] & Hl & Hab). simpl in Hab.
      eexists.
      eapply (select_route_beta_error self z t self' params route a b); eauto.
      lia.
  - apply map_not_Forall in Hbig; [| apply _].
    destruct Hbig as (route & [a b] & Hl & Hab). simpl in Hab.
    exists (Raise (OverflowError "int too large to convert to float")).
    eapply (select_route_beta_overflow self z t self' params route a b); eauto.
    lia.
Qed.

(** ** Outcomes 0 or 1 keep the parameters positive *)

Lemma wins_losses_nonneg route w :
  Forall (λ o, binary o.2) w → 0 ≤ wins route w ∧ 0 ≤ losses route w.
Proof.
  intros Hb. destruct (wins_losses_binary route w Hb) as [-> ->].
  unfold occurrences. lia.
Qed.

Lemma count_window_args_ok lo hi w counts :
  Forall (λ o, binary o.2) w →
  count_window (fresh_counts lo hi) w = Ok counts → beta_args_ok counts.
Proof.
  intros Hb Hc.
  destruct (count_window_cases (fresh_counts lo hi) w) as [[Hall _] | [_ Hr]];
    [| congruence].
  destruct (count_window_ok _ _ Hall) as (c' & Hc' & Hl).
  assert (c' = counts) as -> by congruence.
  intros route ab. rewrite Hl, fresh_counts_lookup.
  destruct (wins_losses_nonneg route w Hb).
  case_decide; [| done]. intros [= <-]. simpl. lia.
Qed.

Lemma binary_exec self c self' :
  engine_inv self → exec self c self' → binary_outcomes [c] →
  binary_windows self ∧ positive_params self →
  binary_windows self' ∧ positive_params self'.
Proof.
  intros Hinv Hex Hbin [Hw Hp].
  destruct Hex as [z t s' r Hsel | z t route success].
  - apply (select_route_engine _ _ _ _ _ Hinv) in Hsel as ->. split.
    + intros ctx. by rewrite window_with_context.
    + intros ctx params. rewrite with_context_params.
      destruct (route_history self !! (z, t)); [apply Hp |].
      case_decide; [| apply Hp]. intros [= <-]. apply fresh_counts_args_ok.
  - apply Forall_cons in Hbin as [Hs _].
    assert (Hw' : binary_windows (update self z t route success).1).
    { intros ctx. rewrite window_update by done. case_decide; [| apply Hw].
      apply Forall_lastn, Forall_app. split; [apply Hw |].
      by apply Forall_singleton. }
    split; [done |].
    intros ctx params. rewrite update_params by done. case_decide as Hc; [| apply Hp].
    subst ctx. specialize (Hw' (z, t)). unfold window in Hw'.
    rewrite update_history, decide_True in Hw' by done.
    change (default [] (items <$> Some ?d)) with (items d) in Hw'.
    destruct (count_window _ _) as [counts | e] eqn:Hc.
    + intros [= <-]. by eapply count_window_args_ok.
    + destruct (route_history self !! (z, t)); [apply Hp |].
      intros [= <-]. apply fresh_counts_args_ok.
Qed.

Lemma binary_run self calls self' :
  engine_inv self → run self calls self' → binary_outcomes calls →
  binary_windows self ∧ positive_params self →
  binary_windows self' ∧ positive_params self'.
Proof.
  intros Hinv Hrun. revert Hinv.
  induction Hrun as [| self c calls self' self'' Hex _ IH]; intros Hinv Hbin Hwp;
    [done |].
  apply Forall_cons in Hbin as [Hc Hbin].
  apply IH; [by eapply engine_inv_exec | done |].
  eapply binary_exec; eauto. by apply Forall_singleton.
Qed.

Lemma x_in_lastn_snoc {A} (m : Z) (l : list A) (x : A) :
  1 ≤ m → ∃ l', lastn m (l ++ [x]) = l' ++ [x].
Proof.
  intros Hm. unfold lastn. rewrite length_app. simpl length.
  rewrite drop_app_le by lia. eauto.
Qed.

Lemma update_raises_invalid self z t route success :
  engine_inv self → ¬ valid_action self route →
  (update self z t route success).2 = Raise KeyError.
Proof.
  intros Hinv Hbad.
  destruct (update_raises_iff self z t route success Hinv) as [[Hall _] | [_ Hr]];
    [| done].
  rewrite window_update, decide_True in Hall by done.
  destruct (x_in_lastn_snoc (memory self) (window self (z, t)) (route, success))
    as [l' Hl']; [apply Hinv |].
  rewrite Hl' in Hall. apply Forall_app in Hall as [_ Hlast].
  rewrite Forall_singleton in Hlast. simpl in Hlast. done.
Qed.

Lemma update_raise_params self z t route success e :
  engine_inv self →
  (update self z t route success).2 = Raise e →
  beta_params (update self z t route success).1 !! (z, t)
  = match route_history self !! (z, t) with
    | Some _ => beta_params self !! (z, t)
    | None => Some (fresh_counts (route_min self) (route_max self))
    end.
Proof.
  intros Hinv. rewrite update_result, update_params, decide_True by done.
  by destruct (count_window _ _).
Qed.

Lemma update_raise_stats self z t route success e :
  engine_inv self →
  (update self z t route success).2 = Raise e →
  get_route_stats (update self z t route success).1 z t
  = match route_history self !! (z, t) with
    | Some _ => get_route_stats self z t
    | None => fresh_counts (route_min self) (route_max self)
    end.
Proof.
  intros Hinv Hr. unfold get_route_stats.
  rewrite (update_raise_params _ _ _ _ _ _ Hinv Hr).
  by destruct (route_history self !! (z, t)).
Qed.

(** ** An engine whose window bound does not fit a [Py_ssize_t] *)

Lemma update_overflow self z t route success :
  PY_SSIZE_T_MAX < memory self → route_history self !! (z, t) = None →
  update self z t route success
  = (self,
     Raise (OverflowError "Python int too large to convert to C ssize_t")).
Proof. intros Hm Hd. by rewrite update_eq, open_error_overflow. Qed.

Lemma select_route_overflow self z t self' r :
  PY_SSIZE_T_MAX < memory self → route_history self !! (z, t) = None →
  select_route self z t self' r →
  self' = self ∧
  r = Raise (OverflowError "Python int too large to convert to C ssize_t").
Proof.
  intros Hm Hd Hsel.
  pose proof (ensure_context_eq self (z, t)) as Hens.
  rewrite open_error_overflow in Hens by done.
  inversion Hsel; subst; rewrite Hens in *; simplify_eq; done.
Qed.

Lemma overflow_exec self c self' :
  PY_SSIZE_T_MAX < memory self → route_history self = ∅ →
  exec self c self' → self' = self.
Proof.
  intros Hm Hd [z t s' r Hsel | z t route success].
  - eapply select_route_overflow; eauto. by rewrite Hd, lookup_empty.
  - rewrite update_overflow; [done | done |]. by rewrite Hd, lookup_empty.
Qed.

Lemma overflow_run self calls self' :
  PY_SSIZE_T_MAX < memory self → route_history self = ∅ →
  run self calls self' → self' = self.
Proof.
  intros Hm Hd Hrun. induction Hrun as [| self c calls self' self'' Hex _ IH];
    [done |].
  apply (overflow_exec _ _ _ Hm Hd) in Hex as ->. by apply IH.
Qed.

(** An engine that [construct] returned is, after any history of calls,
    either within the invariant or still the engine that [construct]
    returned, every call having raised. *)
Lemma reachable_cases (rmin rmax : Z) (t : R) (m : Z) e0 calls self :
  construct rmin rmax t m = Ok e0 → run e0 calls self →
  (m ≤ PY_SSIZE_T_MAX ∧ engine_inv e0 ∧ engine_inv self)
  ∨ (PY_SSIZE_T_MAX < m ∧ self = e0 ∧ e0 = Engine rmin rmax t m ∅ ∅).
Proof.
  intros Hc Hrun. destruct (decide (m ≤ PY_SSIZE_T_MAX)) as [Hfit | Hbig].
  - left. pose proof (engine_inv_construct _ _ _ _ _ Hc Hfit) as Hinv0.
    split; [done |]. split; [done |]. by eapply engine_inv_run.
  - right. split; [lia |].
    apply construct_inv in Hc as (-> & _). split; [| done].
    eapply overflow_run; [| | exact Hrun]; simpl; [lia | done].
Qed.

(** ** The engine's contract *)

(** C9: [construct] fails, with a [ValueError], exactly when
    [route_min >= route_max] or [tau <= 0] or [memory < 1], and succeeds
    otherwise; the engine it then returns has the integers of
    [[route_min, route_max]] as its action space and no per-context
    state. *)
Theorem construct_contract (rmin rmax : Z) (t : R) (m : Z) :
  let constructed := construct (Zone := Zone) (Task := Task) rmin rmax t m in
  ((∃ msg, constructed = Raise (ValueError msg))
   ↔ rmin >= rmax ∨ (t <= 0)%R ∨ m < 1) ∧
  ((∃ self, constructed = Ok self)
   ↔ ¬ (rmin >= rmax ∨ (t <= 0)%R ∨ m < 1)) ∧
  (∀ self, constructed = Ok self →
     (∀ route, route ∈ routes self ↔ rmin ≤ route ≤ rmax) ∧
     route_history self = ∅ ∧ beta_params self = ∅ ∧
     ∀ z tk, get_route_stats self z tk = ∅).
Proof.
  intros constructed. subst constructed.
  assert (Hcases :
    ((rmin >= rmax ∨ (t <= 0)%R ∨ m < 1) ∧
     ∃ msg, construct (Zone := Zone) (Task := Task) rmin rmax t m
            = Raise (ValueError msg))
    ∨ (¬ (rmin >= rmax ∨ (t <= 0)%R ∨ m < 1) ∧
       construct (Zone := Zone) (Task := Task) rmin rmax t m
       = Ok (Engine rmin rmax t m ∅ ∅))).
  { unfold construct, validate_init_params. rewrite Z.geb_leb.
    destruct (rmax <=? rmin) eqn:Hr.
    { apply Z.leb_le in Hr. left. split; [lia | by eauto]. }
    apply Z.leb_gt in Hr.
    destruct (Rle_dec t 0) as [Ht | Ht]; [left; split; by eauto |].
    destruct (m <? 1) eqn:Hm.
    { apply Z.ltb_lt in Hm. left. split; by eauto. }
    apply Z.ltb_ge in Hm. right. split; [| done].
    intros [? | [? | ?]]; [lia | done | lia]. }
  split; [| split].
  - destruct Hcases as [[Hc Hr] | [Hc Hok]]; [done |].
    split; [| done]. intros [msg Hmsg]. congruence.
  - destruct Hcases as [[Hc [msg Hr]] | [Hc Hok]].
    + split; [| done]. intros [self Hself]. congruence.
    + split; [done | by eauto].
  - intros self (-> & Hr & Ht & Hm)%construct_inv.
    split; [| by repeat split].
    intros route. unfold routes, range. simpl. rewrite elem_of_seqZ. lia.
Qed.

(** C1: on every engine obtained from [construct] through any history of
    calls, [update] with an action outside [[route_min, route_max]]
    raises, for every context and every outcome value: a [KeyError] from
    the recomputation, or an [OverflowError] from the opening block when
    [memory] does not fit a [Py_ssize_t].  No Beta parameters are stored
    for the invalid action, and the keys of [get_route_stats] stay within
    [[route_min, route_max]]. *)
Theorem update_invalid_action_raises (rmin rmax : Z) (t : R) (m : Z)
    e0 calls self (z : Zone) (tk : Task) (route success : Z) :
  construct rmin rmax t m = Ok e0 →
  run e0 calls self →
  ¬ valid_action self route →
  (update self z tk route success).2
  = Raise (if decide (m ≤ PY_SSIZE_T_MAX) then KeyError
           else OverflowError "Python int too large to convert to C ssize_t") ∧
  get_route_stats (update self z tk route success).1 z tk
  = match route_history self !! (z, tk) with
    | Some _ => get_route_stats self z tk
    | None => if decide (m ≤ PY_SSIZE_T_MAX) then fresh_counts rmin rmax else ∅
    end ∧
  ∀ a, is_Some (get_route_stats (update self z tk route success).1 z tk !! a)
       ↔ m ≤ PY_SSIZE_T_MAX ∧ rmin ≤ a ≤ rmax.
Proof.
  intros Hc Hrun Hbad.
  destruct (run_config _ _ _ Hrun) as (Hmin & Hmax & _ & Hmem).
  destruct (reachable_cases _ _ _ _ _ _ _ Hc Hrun)
    as [(Hfit & Hinv0 & Hinv) | (Hbig & -> & ->)].
  - pose proof (engine_inv_update self z tk route success Hinv) as Hinv'.
    destruct (update_config self z tk route success) as (H1 & H2 & _).
    apply construct_inv in Hc as (-> & _). simpl in Hmin, Hmax.
    pose proof (update_raises_invalid self z tk route success Hinv Hbad) as Hr.
    rewrite !decide_True by done.
    split; [done |]. split.
    + rewrite (update_raise_stats _ _ _ _ _ _ Hinv Hr). by rewrite Hmin, Hmax.
    + intros a.
      destruct (proj1 (inv_dom _ Hinv' (z, tk))) as [params Hp].
      { rewrite update_history, decide_True by done. eauto. }
      unfold get_route_stats. rewrite Hp. simpl.
      rewrite (inv_keys _ Hinv' _ _ a Hp). unfold valid_action.
      rewrite H1, H2, Hmin, Hmax. split; [by intros ? | by intros [_ ?]].
  - rewrite update_overflow; [| simpl; lia | apply lookup_empty].
    rewrite !decide_False by lia. simpl.
    unfold get_route_stats. simpl. rewrite !lookup_empty. simpl.
    split; [done |]. split; [done |]. intros a. rewrite lookup_empty.
    split; [by intros [? ?] | lia].
Qed.

(** C3 (amended): on an engine whose [memory] fits a [Py_ssize_t], after
    any history of calls in which the context has been referenced and
    every outcome recorded for it is 0 or 1 with an action in range,
    [get_route_stats] maps each action of the action space to 1 + the
    number of its successes in the current window and 1 + the number of
    its failures in the current window. *)
Theorem route_stats_count_window (rmin rmax : Z) (t : R) (m : Z)
    e0 calls self (z : Zone) (tk : Task) (route : Z) :
  construct rmin rmax t m = Ok e0 →
  m ≤ PY_SSIZE_T_MAX →
  run e0 calls self →
  referenced (z, tk) calls = true →
  Forall (λ o, rmin ≤ o.1 ≤ rmax ∧ binary o.2) (observations (z, tk) calls) →
  rmin ≤ route ≤ rmax →
  get_route_stats self z tk !! route
  = Some (1 + occurrences (route, 1) (window self (z, tk)),
          1 + occurrences (route, 0) (window self (z, tk))).
Proof.
  intros Hc Hfit Hrun Href Hobs Hroute.
  pose proof (engine_inv_construct _ _ _ _ _ Hc Hfit) as Hinv0.
  pose proof (engine_inv_run _ _ _ Hinv0 Hrun) as Hinv.
  destruct (run_config _ _ _ Hrun) as (Hmin & Hmax & _ & Hmem).
  apply construct_inv in Hc as (-> & _). simpl in Hmin, Hmax, Hmem.
  assert (Hw : Forall (λ o, rmin ≤ o.1 ≤ rmax ∧ binary o.2) (window self (z, tk))).
  { rewrite (window_run _ _ _ _ Hinv0 Hrun). by apply Forall_lastn. }
  destruct (stats_of_window self z tk Hinv) as (counts & _ & -> & Hl).
  - apply (known_run _ _ _ _ Hinv0 Hrun); by right.
  - eapply Forall_impl; [exact Hw |]. intros o [Ho _].
    unfold valid_action. by rewrite Hmin, Hmax.
  - rewrite Hl by (unfold valid_action; by rewrite Hmin, Hmax).
    destruct (wins_losses_binary route (window self (z, tk))) as [-> ->]; [| done].
    eapply Forall_impl; [exact Hw |]. by intros o [_ Ho].
Qed.

(** C4 (amended): on an engine whose [memory] fits a [Py_ssize_t], after
    a history of calls that recorded [n] valid observations for a
    context, its window is the last [min n memory] of them in arrival
    order, the stored Beta parameters are those counted from this window,
    and recording into a full window drops its oldest entry and appends
    the new one. *)
Theorem window_most_recent (rmin rmax : Z) (t : R) (m : Z)
    e0 calls self (z : Zone) (tk : Task) :
  construct rmin rmax t m = Ok e0 →
  m ≤ PY_SSIZE_T_MAX →
  run e0 calls self →
  Forall (λ o, rmin ≤ o.1 ≤ rmax ∧ binary o.2) (observations (z, tk) calls) →
  let obs := observations (z, tk) calls in
  let n := Z.of_nat (length obs) in
  window self (z, tk) = drop (length obs - Z.to_nat (Z.min n m)) obs ∧
  Z.of_nat (length (window self (z, tk))) = Z.min n m ∧
  (referenced (z, tk) calls = true →
   count_window (fresh_counts rmin rmax) (window self (z, tk))
   = Ok (get_route_stats self z tk)) ∧
  (∀ route success,
     Z.of_nat (length (window self (z, tk))) = m →
     window (update self z tk route success).1 (z, tk)
     = tail (window self (z, tk)) ++ [(route, success)]).
Proof.
  intros Hc Hfit Hrun Hobs obs n.
  pose proof (engine_inv_construct _ _ _ _ _ Hc Hfit) as Hinv0.
  pose proof (engine_inv_run _ _ _ Hinv0 Hrun) as Hinv.
  destruct (run_config _ _ _ Hrun) as (Hmin & Hmax & _ & Hmem).
  apply construct_inv in Hc as (-> & _ & _ & Hm). simpl in Hmin, Hmax, Hmem.
  assert (Hw : window self (z, tk) = lastn m obs).
  { by rewrite (window_run _ _ _ _ Hinv0 Hrun). }
  split; [| split; [| split]].
  - rewrite Hw. unfold lastn. f_equal. lia.
  - rewrite Hw, lastn_length by lia. done.
  - intros Href.
    destruct (stats_of_window self z tk Hinv) as (counts & Hcounts & -> & _).
    + apply (known_run _ _ _ _ Hinv0 Hrun); by right.
    + rewrite Hw. apply Forall_lastn.
      eapply Forall_impl; [exact Hobs |]. intros o [Ho _].
      unfold valid_action. by rewrite Hmin, Hmax.
    + by rewrite Hmin, Hmax in Hcounts.
  - intros route success Hfull.
    rewrite window_update, decide_True by done. rewrite Hmem.
    unfold lastn. rewrite length_app. simpl length.
    replace (length (window self (z, tk)) + 1 - Z.to_nat m)%nat with 1%nat by lia.
    destruct (window self (z, tk)) as [| o w]; [simpl in Hfull; lia | done].
Qed.


(** ** Calls that raise *)

Lemma select_route_known self z t self' r :
  is_Some (route_history self !! (z, t)) → select_route self z t self' r →
  self' = self.
Proof.
  intros Hk Hsel. apply select_route_ensure in Hsel as ->.
  rewrite ensure_context_eq, open_error_known by done. cbn [fst].
  by apply with_context_known.
Qed.

Lemma select_route_frame self z t self' r :
  select_route self z t self' r →
  (∀ ctx, window self' ctx = window self ctx) ∧
  (∀ ctx, ctx ≠ (z, t) →
     route_history self' !! ctx = route_history self !! ctx ∧
     beta_params self' !! ctx = beta_params self !! ctx).
Proof.
  intros Hsel. apply select_route_ensure in Hsel as ->. split.
  - intros ctx. rewrite ensure_context_eq.
    destruct (open_error self (z, t)); [done |]. apply window_with_context.
  - intros ctx Hne. by apply ensure_context_other.
Qed.



Lemma valid_action_config (s s' : ForkliftRouteOptimizer Zone Task) route :
  route_min s' = route_min s → route_max s' = route_max s →
  valid_action s' route ↔ valid_action s route.
Proof. unfold valid_action. by intros -> ->. Qed.



(** ** What a rejected or an unchecked call leaves behind *)

(** C2 (amended): [construct] either raises or returns an engine, never
    both; [get_route_stats] returns the stored mapping of the context, or
    the empty one, and has no other outcome.  A [select_route] that raises leaves every window and every
    other context as they were; on a known context it leaves the engine
    unchanged, on an unknown one it leaves either the engine unchanged
    or the context created.  An [update] that raises leaves the
    configuration and every other context as they were and stores no new
    Beta parameters; when [memory] does not fit a [Py_ssize_t] the engine
    is unchanged, otherwise the context has been created when it was
    unknown and its window has received the observation, the oldest one
    dropped at capacity. *)
Theorem failed_call_effects (rmin rmax : Z) (t : R) (m : Z)
    e0 calls self (z : Zone) (tk : Task) :
  construct rmin rmax t m = Ok e0 →
  run e0 calls self →
  (∀ (rmin' rmax' : Z) (t' : R) (m' : Z) e,
     construct (Zone := Zone) (Task := Task) rmin' rmax' t' m' = Raise e →
     ∀ self0, construct rmin' rmax' t' m' ≠ Ok self0) ∧
  get_route_stats self z tk
  = match beta_params self !! (z, tk) with
    | Some params => params
    | None => ∅
    end ∧
  (∀ self' e, select_route self z tk self' (Raise e) →
     (∀ ctx, window self' ctx = window self ctx) ∧
     (∀ ctx, ctx ≠ (z, tk) →
        route_history self' !! ctx = route_history self !! ctx ∧
        beta_params self' !! ctx = beta_params self !! ctx) ∧
     (is_Some (route_history self !! (z, tk)) ∨ PY_SSIZE_T_MAX < m →
      self' = self) ∧
     (route_history self !! (z, tk) = None →
      self' = self ∨
      (route_history self' !! (z, tk) = Some (Deque m []) ∧
       get_route_stats self' z tk = fresh_counts rmin rmax))) ∧
  (∀ route success e,
     (update self z tk route success).2 = Raise e →
     let self' := (update self z tk route success).1 in
     (route_min self' = route_min self ∧ route_max self' = route_max self ∧
      tau self' = tau self ∧ memory self' = memory self) ∧
     (∀ ctx, ctx ≠ (z, tk) →
        route_history self' !! ctx = route_history self !! ctx ∧
        beta_params self' !! ctx = beta_params self !! ctx) ∧
     (PY_SSIZE_T_MAX < m → self' = self) ∧
     (m ≤ PY_SSIZE_T_MAX →
      get_route_stats self' z tk
      = match route_history self !! (z, tk) with
        | Some _ => get_route_stats self z tk
        | None => fresh_counts rmin rmax
        end ∧
      is_Some (route_history self' !! (z, tk)) ∧
      window self' (z, tk)
      = lastn (memory self) (window self (z, tk) ++ [(route, success)]))).
Proof.
  intros Hc Hrun.
  destruct (run_config _ _ _ Hrun) as (Hmin & Hmax & _ & Hmem).
  split; [intros; congruence |].
  split; [unfold get_route_stats; by destruct (beta_params self !! (z, tk)) |].
  split.
  - intros self' e Hsel.
    destruct (select_route_frame _ _ _ _ _ Hsel) as [Hw Hother].
    split; [done |]. split; [done |]. split.
    + intros [Hk | Hbig]; [by eapply select_route_known |].
      destruct (reachable_cases _ _ _ _ _ _ _ Hc Hrun)
        as [(Hfit & _ & _) | (_ & -> & ->)]; [lia |].
      eapply (select_route_overflow (Engine rmin rmax t m ∅ ∅)); eauto.
    + intros Hnone. apply select_route_ensure in Hsel as ->.
      rewrite ensure_context_eq.
      destruct (open_error self (z, tk)); [by left |]. right. cbn [fst].
      apply construct_inv in Hc as (-> & _). simpl in Hmin, Hmax, Hmem.
      unfold get_route_stats.
      rewrite with_context_history, with_context_params, Hnone.
      rewrite !decide_True by done. unfold deque_of.
      by rewrite Hnone, Hmin, Hmax, Hmem.
  - intros route success e Hr self'. subst self'.
    split; [apply update_config |]. split.
    { intros ctx Hne. by apply update_other. }
    destruct (reachable_cases _ _ _ _ _ _ _ Hc Hrun)
      as [(Hfit & Hinv0 & Hinv) | (Hbig & -> & ->)].
    + apply construct_inv in Hc as (-> & _). simpl in Hmin, Hmax, Hmem.
      split; [lia |]. intros _. split; [| split].
      * rewrite (update_raise_stats _ _ _ _ _ _ Hinv Hr). by rewrite Hmin, Hmax.
      * rewrite update_history, decide_True by done. eauto.
      * by rewrite window_update, decide_True.
    + split; [| lia]. intros _.
      rewrite update_overflow; [done | simpl; lia | apply lookup_empty].
Qed.

(** C6 (amended): [update] does not check the outcome.  On an engine
    whose [memory] fits a [Py_ssize_t], with an action in range and a
    window that holds actions in range only, the call
    returns normally for every outcome value, the observation enters the
    window, and each action's alpha is then 1 + the sum of its outcomes
    in the window and its beta 1 + the sum of [1 - outcome]. *)
Theorem update_accepts_any_outcome (rmin rmax : Z) (t : R) (m : Z)
    e0 calls self (z : Zone) (tk : Task) (route success : Z) :
  construct rmin rmax t m = Ok e0 →
  m ≤ PY_SSIZE_T_MAX →
  run e0 calls self →
  valid_action self route →
  Forall (λ o, valid_action self o.1) (window self (z, tk)) →
  let self' := (update self z tk route success).1 in
  (update self z tk route success).2 = Ok tt ∧
  window self' (z, tk)
  = lastn (memory self) (window self (z, tk) ++ [(route, success)]) ∧
  ∀ a, valid_action self a →
    get_route_stats self' z tk !! a
    = Some (1 + wins a (window self' (z, tk)),
            1 + losses a (window self' (z, tk))).
Proof.
  intros Hc Hfit Hrun Hroute Hw self'.
  pose proof (engine_inv_construct _ _ _ _ _ Hc Hfit) as Hinv0.
  pose proof (engine_inv_run _ _ _ Hinv0 Hrun) as Hinv.
  pose proof (engine_inv_update self z tk route success Hinv) as Hinv'.
  destruct (update_config self z tk route success) as (H1 & H2 & _).
  assert (Hw' : window self' (z, tk)
                = lastn (memory self) (window self (z, tk) ++ [(route, success)])).
  { unfold self'. by rewrite window_update, decide_True. }
  assert (Hall : Forall (λ o, valid_action self' o.1) (window self' (z, tk))).
  { rewrite Hw'. apply Forall_lastn, Forall_app. split.
    - eapply Forall_impl; [exact Hw |]. intros o Ho.
      by apply (valid_action_config self self').
    - apply Forall_singleton. by apply (valid_action_config self self'). }
  split; [| split; [done |]].
  - destruct (update_raises_iff self z tk route success Hinv) as [[_ Hok] | [Hex _]];
      [done |].
    exfalso. apply Exists_exists in Hex as (o & Ho & Hbad). apply Hbad.
    rewrite Forall_forall in Hall.
    apply (valid_action_config self self'); [done | done |]. by apply Hall.
  - intros a Ha.
    destruct (stats_of_window self' z tk Hinv') as (counts & _ & -> & Hl).
    + unfold self'. rewrite update_history, decide_True by done. eauto.
    + done.
    + apply Hl. by apply (valid_action_config self self').
Qed.


(** ** Every call has an outcome *)

Lemma run_replay self calls self' :
  run self calls self' → self' = replay self calls.
Proof.
  induction 1 as [| self c calls self' self'' Hex _ IH]; [done |].
  destruct Hex as [z t s' r Hsel | z t route success]; cbn [replay].
  - by apply select_route_ensure in Hsel as ->.
  - done.
Qed.

Lemma replay_run self calls : run self calls (replay self calls).
Proof.
  revert self. induction calls as [| c calls IH]; intros self; [constructor |].
  destruct c as [z t | z t route success]; cbn [replay].
  - destruct (select_route_total self z t) as [r Hr].
    eapply run_cons; [by eapply exec_select |]. apply IH.
  - eapply run_cons; [apply exec_update |]. apply IH.
Qed.

End Properties.

(** * The warehouse: examples and instances *)

Local Open Scope string_scope.
Local Open Scope list_scope.
Local Open Scope Z_scope.


Lemma warehouse_constructed : construct 1 10 2 2 = Ok warehouse.
Proof. apply construct_ok; [lia | lra | lia]. Qed.

Example warehouse_eviction :
  get_route_stats
    (replay warehouse [Update "dock" "pallet" 3 1; Update "dock" "pallet" 3 0;
                       Update "dock" "pallet" 4 1]) "dock" "pallet" !! 3
  = Some (1, 2).
Proof. vm_compute. reflexivity. Qed.

Lemma warehouse_fits : 2 ≤ PY_SSIZE_T_MAX.
Proof. unfold PY_SSIZE_T_MAX. lia. Qed.

Lemma warehouse_inv : engine_inv warehouse.
Proof.
  exact (engine_inv_construct _ _ _ _ _ warehouse_constructed warehouse_fits).
Qed.

Lemma after_shift_run : run warehouse shift_calls after_shift.
Proof. apply replay_run. Qed.

Lemma shift_calls_valid :
  Forall (λ o, 1 ≤ o.1 ≤ 10 ∧ binary o.2)
         (observations ("dock", "pallet") shift_calls).
Proof.
  assert (observations ("dock", "pallet") shift_calls = [(3, 1); (3, 0); (4, 1)])
    as -> by (vm_compute; reflexivity).
  repeat apply Forall_cons_2; try apply Forall_nil; unfold binary; simpl; lia.
Qed.

Lemma shift_calls_binary : binary_outcomes shift_calls.
Proof.
  unfold binary_outcomes, shift_calls, binary.
  repeat apply Forall_cons_2; try apply Forall_nil; auto.
Qed.

(** The specification's examples of construction. *)
Example construct_examples :
  (∃ msg, @construct string string _ _ _ _ 5 5 1 5 = Raise (ValueError msg)) ∧
  (∃ msg, @construct string string _ _ _ _ 1 10 0 5 = Raise (ValueError msg)) ∧
  (∃ msg, @construct string string _ _ _ _ 1 10 1 0 = Raise (ValueError msg)) ∧
  @construct string string _ _ _ _ 1 10 1 1 = Ok (Engine 1 10 1 1 ∅ ∅).
Proof.
  repeat split.
  - by eexists.
  - unfold construct, validate_init_params. simpl.
    destruct (Rle_dec 0 0) as [_ | Hn]; [by eexists | lra].
  - unfold construct, validate_init_params. simpl.
    destruct (Rle_dec 1 0) as [Hn | _]; [lra | by eexists].
  - apply construct_ok; [lia | lra | lia].
Qed.

Example after_shift_window :
  window after_shift ("dock", "pallet") = [(3, 0); (4, 1)] ∧
  get_route_stats after_shift "dock" "pallet" !! 3 = Some (1, 2) ∧
  get_route_stats after_shift "dock" "pallet" !! 4 = Some (2, 1) ∧
  get_route_stats after_shift "aisle" "tote" !! 4 = Some (1, 1) ∧
  get_route_stats after_shift "yard" "tote" = ∅.
Proof. vm_compute. done. Qed.

(** ** The theorems at the warehouse *)

Lemma update_invalid_action_raises_witness :
  ¬ valid_action after_shift 11 ∧
  (update after_shift "dock" "pallet" 11 1).2 = Raise KeyError ∧
  get_route_stats (update after_shift "dock" "pallet" 11 1).1 "dock" "pallet"
  = get_route_stats after_shift "dock" "pallet".
Proof.
  assert (Hbad : ¬ valid_action after_shift 11).
  { unfold valid_action. vm_compute. intros [_ Hle]. by apply Hle. }
  split; [exact Hbad |].
  destruct (update_invalid_action_raises 1 10 2 2 warehouse shift_calls
              after_shift "dock" "pallet" 11 1 warehouse_constructed
              after_shift_run Hbad) as (Hr & Hstats & _).
  rewrite decide_True in Hr by exact warehouse_fits.
  split; [exact Hr |]. rewrite Hstats. vm_compute. reflexivity.
Defined.

Lemma route_stats_count_window_witness :
  get_route_stats after_shift "dock" "pallet" !! 3
  = Some (1 + occurrences (3, 1) (window after_shift ("dock", "pallet")),
          1 + occurrences (3, 0) (window after_shift ("dock", "pallet"))).
Proof.
  apply (route_stats_count_window 1 10 2 2 warehouse shift_calls after_shift
           "dock" "pallet" 3 warehouse_constructed warehouse_fits
           after_shift_run).
  - reflexivity.
  - exact shift_calls_valid.
  - lia.
Defined.

Lemma window_most_recent_witness :
  window after_shift ("dock", "pallet")
  = drop (3 - Z.to_nat (Z.min 3 2))
         (observations ("dock", "pallet") shift_calls) ∧
  Z.of_nat (length (window after_shift ("dock", "pallet"))) = Z.min 3 2 ∧
  (referenced ("dock", "pallet") shift_calls = true →
   count_window (fresh_counts 1 10) (window after_shift ("dock", "pallet"))
   = Ok (get_route_stats after_shift "dock" "pallet")) ∧
  (∀ route success,
     Z.of_nat (length (window after_shift ("dock", "pallet"))) = 2 →
     window (update after_shift "dock" "pallet" route success).1 ("dock", "pallet")
     = tail (window after_shift ("dock", "pallet")) ++ [(route, success)]).
Proof.
  exact (window_most_recent 1 10 2 2 warehouse shift_calls after_shift
           "dock" "pallet" warehouse_constructed warehouse_fits
           after_shift_run shift_calls_valid).
Defined.




Lemma softmax_distribution_shift_invariant_witness :
  ∃ probs, softmax warehouse [0; 1; 1 / 2]%R = Ok probs ∧
    length probs = 3%nat ∧
    Forall (λ p, 0 <= p)%R probs ∧
    np_sum probs = 1%R ∧
    softmax warehouse ((λ v, v + 5)%R <$> [0; 1; 1 / 2]%R) = Ok probs.
Proof.
  apply (softmax_distribution_shift_invariant warehouse [0; 1; 1 / 2]%R 5%R).
  - simpl. lra.
  - discriminate.
Defined.

Lemma failed_call_effects_witness :
  (update after_shift "dock" "pallet" 11 1).2 = Raise KeyError ∧
  (∀ ctx, ctx ≠ ("dock", "pallet") →
     route_history (update after_shift "dock" "pallet" 11 1).1 !! ctx
     = route_history after_shift !! ctx ∧
     beta_params (update after_shift "dock" "pallet" 11 1).1 !! ctx
     = beta_params after_shift !! ctx) ∧
  get_route_stats (update after_shift "dock" "pallet" 11 1).1 "dock" "pallet"
  = get_route_stats after_shift "dock" "pallet" ∧
  window (update after_shift "dock" "pallet" 11 1).1 ("dock", "pallet")
  = [(4, 1); (11, 1)].
Proof.
  assert (Hr : (update after_shift "dock" "pallet" 11 1).2 = Raise KeyError)
    by (vm_compute; reflexivity).
  destruct (failed_call_effects 1 10 2 2 warehouse shift_calls after_shift
              "dock" "pallet" warehouse_constructed after_shift_run)
    as (_ & _ & _ & Hupd).
  destruct (Hupd 11 1 KeyError Hr) as (_ & Hother & _ & Hfit).
  destruct (Hfit warehouse_fits) as (Hstats & _ & Hw).
  split; [exact Hr |]. split; [exact Hother |]. split.
  - rewrite Hstats. vm_compute. reflexivity.
  - rewrite Hw. vm_compute. reflexivity.
Defined.

Lemma update_accepts_any_outcome_witness :
  (update after_shift "dock" "pallet" 3 5).2 = Ok tt ∧
  window (update after_shift "dock" "pallet" 3 5).1 ("dock", "pallet")
  = lastn (memory after_shift)
      (window after_shift ("dock", "pallet") ++ [(3, 5)]) ∧
  ∀ a, valid_action after_shift a →
    get_route_stats (update after_shift "dock" "pallet" 3 5).1 "dock" "pallet" !! a
    = Some (1 + wins a (window (update after_shift "dock" "pallet" 3 5).1
                          ("dock", "pallet")),
            1 + losses a (window (update after_shift "dock" "pallet" 3 5).1
                            ("dock", "pallet"))).
Proof.
  apply (update_accepts_any_outcome 1 10 2 2 warehouse shift_calls after_shift
           "dock" "pallet" 3 5 warehouse_constructed warehouse_fits
           after_shift_run).
  - unfold valid_action. vm_compute. split; discriminate.
  - assert (window after_shift ("dock", "pallet") = [(3, 0); (4, 1)]) as ->
      by (vm_compute; reflexivity).
    repeat apply Forall_cons_2; try apply Forall_nil;
      unfold valid_action; vm_compute; split; discriminate.
Defined.


(** ** Where the code departs from the specification *)

Lemma oversized_constructed : construct 1 10 2 (2 ^ 63) = Ok oversized.
Proof. apply construct_ok; [lia | lra | lia]. Qed.

Lemma oversized_memory : PY_SSIZE_T_MAX < memory oversized.
Proof. unfold PY_SSIZE_T_MAX. simpl. lia. Qed.

Lemma oversized_update z t route success :
  update oversized z t route success
  = (oversized,
     Raise (OverflowError "Python int too large to convert to C ssize_t")).
Proof.
  apply update_overflow; [exact oversized_memory | apply lookup_empty].
Qed.

(** C2: a call of [update] that raises has already created the context
    and appended the observation. *)
Lemma failed_update_changes_state :
  construct 1 10 2 2 = Ok warehouse ∧
  (update warehouse "dock" "pallet" 11 1).2 = Raise KeyError ∧
  window warehouse ("dock", "pallet") = [] ∧
  get_route_stats warehouse "dock" "pallet" = ∅ ∧
  window (update warehouse "dock" "pallet" 11 1).1 ("dock", "pallet") = [(11, 1)] ∧
  get_route_stats (update warehouse "dock" "pallet" 11 1).1 "dock" "pallet"
  = fresh_counts 1 10 ∧
  (update warehouse "dock" "pallet" 11 1).1 ≠ warehouse.
Proof.
  split; [exact warehouse_constructed |].
  repeat split; try (vm_compute; reflexivity).
  intros Heq. apply (f_equal (λ s, window s ("dock", "pallet"))) in Heq.
  vm_compute in Heq. discriminate.
Qed.

(** C3: with [memory = 2 ** 63], which [construct] accepts, the deque
    cannot be created: a valid [update] raises [OverflowError], and
    [get_route_stats] for the context it named has no entry for the
    action, where the claim promises (2, 1). *)
Lemma oversized_memory_no_stats :
  construct 1 10 2 (2 ^ 63) = Ok oversized ∧
  1 ≤ 3 ≤ 10 ∧ binary 1 ∧
  (update oversized "dock" "pallet" 3 1).2
  = Raise (OverflowError "Python int too large to convert to C ssize_t") ∧
  referenced ("dock", "pallet") [Update "dock" "pallet" 3 1] = true ∧
  get_route_stats (replay oversized [Update "dock" "pallet" 3 1])
    "dock" "pallet" !! 3 = None.
Proof.
  split; [exact oversized_constructed |].
  split; [lia |]. split; [unfold binary; lia |].
  cbn [replay]. rewrite oversized_update.
  split; [done |]. split; [reflexivity |]. done.
Qed.

(** C4: with [memory = 2 ** 63] one valid observation has been issued
    and [min 1 memory = 1], yet the window of the context is empty. *)
Lemma oversized_memory_no_window :
  construct 1 10 2 (2 ^ 63) = Ok oversized ∧
  observations ("dock", "pallet") [Update "dock" "pallet" 3 1] = [(3, 1)] ∧
  Z.min 1 (memory oversized) = 1 ∧
  window (replay oversized [Update "dock" "pallet" 3 1]) ("dock", "pallet")
  = [].
Proof.
  split; [exact oversized_constructed |].
  split; [reflexivity |]. split; [reflexivity |].
  cbn [replay]. by rewrite oversized_update.
Qed.

(** C6: an outcome of 5 for an action in range is accepted, and the beta
    of that action becomes -3. *)
Lemma invalid_outcome_accepted :
  construct 1 10 2 2 = Ok warehouse ∧
  valid_action warehouse 3 ∧ ¬ binary 5 ∧
  (update warehouse "dock" "pallet" 3 5).2 = Ok tt ∧
  get_route_stats (update warehouse "dock" "pallet" 3 5).1 "dock" "pallet" !! 3
  = Some (6, -3).
Proof.
  split; [exact warehouse_constructed |].
  split; [unfold valid_action; simpl; lia |].
  split; [unfold binary; lia |].
  split; vm_compute; reflexivity.
Qed.



(** * Further properties of the engine *)

(** A history in which a call with an action outside the action space
    is followed by two valid ones. *)
Definition recovery_calls : list (@call string string) :=
  [Update "dock" "pallet" 9 1; Update "dock" "pallet" 11 0;
   Update "dock" "pallet" 3 0; Update "dock" "pallet" 4 1].

Section Further.
Context {Zone Task : Type} `{Countable Zone} `{Countable Task}.

Implicit Types (self : ForkliftRouteOptimizer Zone Task).
Implicit Types (ctx : Zone * Task) (z : Zone) (tk : Task).
Implicit Types (calls : list (@call Zone Task)).

(** ** Contexts are independent and created lazily *)

Lemma untouched_exec self (c : @call Zone Task) self' ctx :
  exec self c self' → referenced ctx [c] = false →
  route_history self' !! ctx = route_history self !! ctx ∧
  beta_params self' !! ctx = beta_params self !! ctx.
Proof.
  intros [z t s' r Hsel | z t route success]; cbn [referenced];
    rewrite orb_false_r, bool_decide_eq_false; intros Hne.
  - apply select_route_ensure in Hsel as ->. by apply ensure_context_other.
  - by apply update_other.
Qed.

Lemma untouched_run self calls self' ctx :
  run self calls self' → referenced ctx calls = false →
  route_history self' !! ctx = route_history self !! ctx ∧
  beta_params self' !! ctx = beta_params self !! ctx.
Proof.
  induction 1 as [| self c calls self' self'' Hex _ IH]; intros Href; [done |].
  assert (Hc : referenced ctx [c] = false ∧ referenced ctx calls = false).
  { destruct c; cbn [referenced] in *; rewrite orb_false_r;
      by apply orb_false_iff in Href. }
  destruct Hc as [Hc Hcalls].
  destruct (untouched_exec _ _ _ _ Hex Hc) as [H1 H2].
  destruct (IH Hcalls) as [I1 I2]. split; congruence.
Qed.

(** X1: calls that do not name a context, whether they return or raise,
    leave its window and its Beta parameters as they were, on any
    engine. *)
Theorem other_contexts_untouched self calls self' z tk :
  run self calls self' →
  referenced (z, tk) calls = false →
  window self' (z, tk) = window self (z, tk) ∧
  get_route_stats self' z tk = get_route_stats self z tk ∧
  (is_Some (route_history self' !! (z, tk))
   ↔ is_Some (route_history self !! (z, tk))).
Proof.
  intros Hrun Href.
  destruct (untouched_run _ _ _ _ Hrun Href) as [Hh Hp].
  unfold window, get_route_stats. by rewrite Hh, Hp.
Qed.

(** X2: a context that no call has named does not exist: no window is
    stored for it and [get_route_stats] returns the empty mapping.  When
    [memory] fits a [Py_ssize_t] the context comes into being with the
    first call that names it; when it does not, no context ever comes
    into being. *)
Theorem context_created_on_first_reference (rmin rmax : Z) (t : R) (m : Z)
    e0 calls self z tk :
  construct rmin rmax t m = Ok e0 →
  run e0 calls self →
  (referenced (z, tk) calls = false →
   route_history self !! (z, tk) = None ∧ get_route_stats self z tk = ∅) ∧
  (m ≤ PY_SSIZE_T_MAX → referenced (z, tk) calls = true →
   is_Some (route_history self !! (z, tk)) ∧ get_route_stats self z tk ≠ ∅) ∧
  (PY_SSIZE_T_MAX < m →
   route_history self !! (z, tk) = None ∧ get_route_stats self z tk = ∅).
Proof.
  intros Hc Hrun. split; [| split].
  - intros Href. destruct (untouched_run _ _ _ _ Hrun Href) as [Hh Hp].
    apply construct_inv in Hc as (-> & _). simpl in Hh, Hp.
    unfold get_route_stats. rewrite Hh, Hp. by rewrite !lookup_empty.
  - intros Hfit Href.
    pose proof (engine_inv_construct _ _ _ _ _ Hc Hfit) as Hinv0.
    pose proof (engine_inv_run _ _ _ Hinv0 Hrun) as Hinv.
    assert (Hk : is_Some (route_history self !! (z, tk))).
    { apply (known_run _ _ _ _ Hinv0 Hrun). by right. }
    split; [done |].
    destruct (proj1 (inv_dom _ Hinv (z, tk)) Hk) as [params Hp].
    unfold get_route_stats. rewrite Hp. simpl. intros ->.
    destruct (proj2 (inv_keys _ Hinv _ _ (route_min self) Hp)) as [? Hl].
    + unfold valid_action. pose proof (inv_routes _ Hinv). lia.
    + by rewrite lookup_empty in Hl.
  - intros Hbig.
    destruct (reachable_cases _ _ _ _ _ _ _ Hc Hrun)
      as [(Hfit & _ & _) | (_ & -> & ->)]; [lia |].
    unfold get_route_stats. simpl. by rewrite !lookup_empty.
Qed.

(** X3: [select_route] records nothing.  Whatever it returns or raises,
    every window is as before; on a known context the engine is
    unchanged; on an unknown one either the deque could not be created,
    the call raises that exception and the engine is unchanged, or the
    only change is the new context, with an empty window and every
    action of the action space at (1, 1). *)
Theorem select_route_only_creates self z tk self' r :
  select_route self z tk self' r →
  (∀ ctx, window self' ctx = window self ctx) ∧
  (∀ ctx, ctx ≠ (z, tk) →
     route_history self' !! ctx = route_history self !! ctx ∧
     beta_params self' !! ctx = beta_params self !! ctx) ∧
  (is_Some (route_history self !! (z, tk)) → self' = self) ∧
  (route_history self !! (z, tk) = None →
     (∃ e, deque_new (memory self) = Raise e ∧ r = Raise e ∧ self' = self) ∨
     (deque_new (memory self) = Ok (Deque (memory self) []) ∧
      route_history self' !! (z, tk) = Some (Deque (memory self) []) ∧
      ∀ a, get_route_stats self' z tk !! a
           = if decide (route_min self ≤ a ≤ route_max self)
             then Some (1, 1) else None)).
Proof.
  intros Hsel.
  destruct (select_route_frame _ _ _ _ _ Hsel) as [Hw Hother].
  split; [done |]. split; [done |].
  split; [intros Hk; by eapply select_route_known |].
  intros Hnone.
  assert (Hens : (∃ e, ensure_context self (z, tk) = (self', Raise e) ∧
                       r = Raise e)
                 ∨ ensure_context self (z, tk) = (self', Ok tt)).
  { inversion Hsel; subst; eauto. }
  unfold ensure_context in Hens. rewrite Hnone in Hens.
  destruct (deque_new (memory self)) as [d | e'] eqn:Hd.
  - right. destruct (deque_new_ok _ _ Hd) as [-> _].
    split; [done |].
    assert (Hself : self' = with_context self (z, tk)).
    { unfold with_context. rewrite Hnone.
      destruct Hens as [(e & [= <- ?] & _) | [= <-]]; done. }
    subst self'. split.
    + rewrite with_context_history, decide_True by done.
      unfold deque_of. by rewrite Hnone.
    + intros a. unfold get_route_stats.
      rewrite with_context_params, Hnone, decide_True by done. simpl.
      apply fresh_counts_lookup.
  - left. exists e'. destruct Hens as [(e & [= <- <-] & ->) | [=]]. done.
Qed.

Lemma with_context_idemp self ctx :
  with_context (with_context self ctx) ctx = with_context self ctx.
Proof.
  apply with_context_known.
  rewrite with_context_history, decide_True by done. eauto.
Qed.

(** X4: a selection for a context does not change what recording an
    outcome for that context does afterwards: [update] after
    [select_route] returns, and leaves, what [update] alone does. *)
Theorem update_after_select self z tk self' r (route success : Z) :
  select_route self z tk self' r →
  update self' z tk route success = update self z tk route success.
Proof.
  intros Hsel. apply select_route_ensure in Hsel as ->.
  rewrite ensure_context_eq.
  destruct (open_error self (z, tk)) as [e |] eqn:He; [done |]. cbn [fst].
  rewrite !update_eq, He, open_error_known.
  - unfold update_ok. by rewrite with_context_idemp.
  - rewrite with_context_history, decide_True by done. eauto.
Qed.

(** ** Recording outcomes *)

(** X5: on every engine obtained from [construct] with a [memory] that
    fits a [Py_ssize_t], [update] returns normally exactly when the last
    [memory] observations of the context, the new one included, all have
    an action of the action space; otherwise it raises, and the exception
    is a [KeyError].  With a [memory] that does not fit, every [update]
    raises [OverflowError]. *)
Theorem update_raises_exactly (rmin rmax : Z) (t : R) (m : Z)
    e0 calls self z tk (route success : Z) :
  construct rmin rmax t m = Ok e0 →
  run e0 calls self →
  (m ≤ PY_SSIZE_T_MAX →
   let recent := lastn m (window self (z, tk) ++ [(route, success)]) in
   ((update self z tk route success).2 = Ok tt
    ↔ Forall (λ o, rmin ≤ o.1 ≤ rmax) recent) ∧
   ((update self z tk route success).2 = Raise KeyError
    ↔ Exists (λ o, ¬ rmin ≤ o.1 ≤ rmax) recent)) ∧
  (PY_SSIZE_T_MAX < m →
   (update self z tk route success).2
   = Raise (OverflowError "Python int too large to convert to C ssize_t")).
Proof.
  intros Hc Hrun. split.
  - intros Hfit recent.
    pose proof (engine_inv_construct _ _ _ _ _ Hc Hfit) as Hinv0.
    pose proof (engine_inv_run _ _ _ Hinv0 Hrun) as Hinv.
    destruct (run_config _ _ _ Hrun) as (Hmin & Hmax & _ & Hmem).
    apply construct_inv in Hc as (-> & _). simpl in Hmin, Hmax, Hmem.
    pose proof (update_raises_iff self z tk route success Hinv) as Hcases.
    cbv zeta in Hcases. rewrite window_update, decide_True in Hcases by done.
    unfold valid_action in Hcases. rewrite Hmin, Hmax, Hmem in Hcases.
    fold recent in Hcases.
    destruct Hcases as [[Hall Hok] | [Hex Hr]].
    + split; [done |]. rewrite Hok. split; [done |].
      intros Hex. apply Exists_exists in Hex as (o & Ho & Hbad).
      rewrite Forall_forall in Hall. exfalso. apply Hbad. by apply Hall.
    + split; [| done]. rewrite Hr. split; [done |].
      intros Hall. apply Exists_exists in Hex as (o & Ho & Hbad).
      rewrite Forall_forall in Hall. exfalso. apply Hbad. by apply Hall.
  - intros Hbig.
    destruct (reachable_cases _ _ _ _ _ _ _ Hc Hrun)
      as [(Hfit & _ & _) | (_ & -> & ->)]; [lia |].
    rewrite update_overflow; [done | simpl; lia | apply lookup_empty].
Qed.

(** X6: when [memory] fits a [Py_ssize_t], every call of [update], one
    that raises included, takes a place in the window: after any history
    of calls the window of a context holds the last [min n memory] of the
    [n] observations that the calls passed for it, in order, and never
    more than [memory].  When [memory] does not fit, every window stays
    empty. *)
Theorem window_counts_failed_calls (rmin rmax : Z) (t : R) (m : Z)
    e0 calls self z tk :
  construct rmin rmax t m = Ok e0 →
  run e0 calls self →
  (m ≤ PY_SSIZE_T_MAX →
   window self (z, tk) = lastn m (observations (z, tk) calls) ∧
   Z.of_nat (length (window self (z, tk)))
   = Z.min (Z.of_nat (length (observations (z, tk) calls))) m) ∧
  (PY_SSIZE_T_MAX < m → window self (z, tk) = []).
Proof.
  intros Hc Hrun. split.
  - intros Hfit.
    pose proof (engine_inv_construct _ _ _ _ _ Hc Hfit) as Hinv0.
    apply construct_inv in Hc as (-> & _ & _ & Hm).
    assert (Hw : window self (z, tk) = lastn m (observations (z, tk) calls)).
    { by rewrite (window_run _ _ _ _ Hinv0 Hrun). }
    split; [done |]. rewrite Hw. apply lastn_length. lia.
  - intros Hbig.
    destruct (reachable_cases _ _ _ _ _ _ _ Hc Hrun)
      as [(Hfit & _ & _) | (_ & -> & ->)]; [lia |].
    unfold window. simpl. by rewrite lookup_empty.
Qed.

Lemma wins_plus_losses route (w : list (Z * Z)) :
  wins route w + losses route w
  = Z.of_nat (length (filter (λ o, o.1 = route) w)).
Proof.
  induction w as [| [r s] w IH]; [done |].
  unfold wins, losses. cbn [foldr]. fold (wins route w) (losses route w).
  rewrite filter_cons. cbn [fst snd].
  destruct (decide (r = route)); simpl length; lia.
Qed.

(** X7: whatever integers the outcomes are, when the window of a known
    context holds actions of the action space only, the two parameters
    of an action add up to 2 plus the number of observations of that
    action in the window. *)
Theorem alpha_plus_beta_counts_observations (rmin rmax : Z) (t : R) (m : Z)
    e0 calls self z tk (a : Z) :
  construct rmin rmax t m = Ok e0 →
  run e0 calls self →
  is_Some (route_history self !! (z, tk)) →
  Forall (λ o, rmin ≤ o.1 ≤ rmax) (window self (z, tk)) →
  rmin ≤ a ≤ rmax →
  ∃ alpha beta,
    get_route_stats self z tk !! a = Some (alpha, beta) ∧
    alpha + beta
    = 2 + Z.of_nat (length (filter (λ o, o.1 = a) (window self (z, tk)))).
Proof.
  intros Hc Hrun Hk Hw Ha.
  destruct (reachable_cases _ _ _ _ _ _ _ Hc Hrun)
    as [(Hfit & Hinv0 & Hinv) | (_ & -> & ->)];
    [| simpl in Hk; rewrite lookup_empty in Hk; by destruct Hk].
  destruct (run_config _ _ _ Hrun) as (Hmin & Hmax & _).
  apply construct_inv in Hc as (-> & _). simpl in Hmin, Hmax.
  destruct (stats_of_window self z tk Hinv Hk) as (counts & _ & -> & Hl).
  { eapply Forall_impl; [exact Hw |]. intros o Ho.
    unfold valid_action. by rewrite Hmin, Hmax. }
  do 2 eexists. split.
  - apply Hl. unfold valid_action. by rewrite Hmin, Hmax.
  - rewrite <- wins_plus_losses. lia.
Qed.


(** Every stored pair of Beta parameters is at least (1, 1) and adds up
    to at most 2 plus the capacity of the window. *)
Definition bounded_params (self : ForkliftRouteOptimizer Zone Task) : Prop :=
  ∀ ctx params a ab,
    beta_params self !! ctx = Some params → params !! a = Some ab →
    1 ≤ ab.1 ∧ 1 ≤ ab.2 ∧ ab.1 + ab.2 ≤ 2 + memory self.

Lemma fresh_counts_bounded lo hi (mem a : Z) ab :
  1 ≤ mem → fresh_counts lo hi !! a = Some ab →
  1 ≤ ab.1 ∧ 1 ≤ ab.2 ∧ ab.1 + ab.2 ≤ 2 + mem.
Proof.
  intros Hmem. rewrite fresh_counts_lookup. case_decide; [| done].
  intros [= <-]. simpl. lia.
Qed.

Lemma count_window_bounded lo hi (w : list (Z * Z)) counts (mem a : Z) ab :
  Forall (λ o, binary o.2) w → Z.of_nat (length w) ≤ mem →
  count_window (fresh_counts lo hi) w = Ok counts →
  counts !! a = Some ab →
  1 ≤ ab.1 ∧ 1 ≤ ab.2 ∧ ab.1 + ab.2 ≤ 2 + mem.
Proof.
  intros Hb Hlen Hc.
  destruct (count_window_cases (fresh_counts lo hi) w) as [[Hall _] | [_ Hr]];
    [| congruence].
  destruct (count_window_ok _ _ Hall) as (c' & Hc' & Hl).
  assert (c' = counts) as -> by congruence.
  rewrite Hl, fresh_counts_lookup.
  destruct (wins_losses_nonneg a w Hb) as [Hwins Hlosses].
  pose proof (wins_plus_losses a w) as Hsum.
  pose proof (length_filter (λ o : Z * Z, o.1 = a) w) as Hf.
  case_decide; [| done]. intros [= <-]. simpl. lia.
Qed.

Lemma bounded_exec self (c : @call Zone Task) self' :
  engine_inv self → exec self c self' → binary_outcomes [c] →
  binary_windows self → bounded_params self → bounded_params self'.
Proof.
  intros Hinv Hex Hbin Hw Hp.
  pose proof (inv_memory _ Hinv) as Hmem.
  destruct (exec_config _ _ _ Hex) as (_ & _ & _ & Hm').
  pose proof (engine_inv_exec _ _ _ Hinv Hex) as Hinv'.
  intros ctx params a ab. rewrite Hm'.
  destruct Hex as [z t s' r Hsel | z t route success].
  - apply (select_route_engine _ _ _ _ _ Hinv) in Hsel as ->.
    rewrite with_context_params.
    destruct (route_history self !! (z, t)); [apply Hp |].
    case_decide; [| apply Hp]. intros [= <-]. by apply fresh_counts_bounded.
  - apply Forall_cons in Hbin as [Hs _].
    rewrite update_params by done. case_decide as Hc; [| apply Hp]. subst ctx.
    assert (Hitems : items (deque_append (deque_of self (z, t)) (route, success))
                     = window (update self z t route success).1 (z, t)).
    { unfold window. by rewrite update_history, decide_True by done. }
    rewrite Hitems.
    destruct (count_window _ _) as [counts | e] eqn:Hc.
    + intros [= <-]. eapply count_window_bounded; [| | exact Hc].
      * rewrite window_update, decide_True by done.
        apply Forall_lastn, Forall_app. split; [apply Hw |].
        by apply Forall_singleton.
      * rewrite <- Hm'. by apply window_length.
    + destruct (route_history self !! (z, t)); [apply Hp |].
      intros [= <-]. by apply fresh_counts_bounded.
Qed.

Lemma bounded_positive self : bounded_params self → positive_params self.
Proof.
  intros Hb ctx params Hp a ab Hab.
  destruct (Hb ctx params a ab Hp Hab) as (? & ? & _). lia.
Qed.

Lemma bounded_run self calls self' :
  engine_inv self → run self calls self' → binary_outcomes calls →
  binary_windows self → bounded_params self → bounded_params self'.
Proof.
  intros Hinv Hrun. revert Hinv.
  induction Hrun as [| self c calls self' self'' Hex _ IH];
    intros Hinv Hbin Hw Hb; [done |].
  apply Forall_cons in Hbin as [Hc Hbin].
  assert (Hc1 : binary_outcomes [c]) by (by apply Forall_singleton).
  destruct (binary_exec self c self' Hinv Hex Hc1) as [Hw' _].
  { split; [done | by apply bounded_positive]. }
  apply IH; [by eapply engine_inv_exec | done | done |].
  by eapply bounded_exec.
Qed.

(** X8: as long as every recorded outcome was 0 or 1, whatever the
    actions were, every pair that [get_route_stats] returns has alpha and
    beta at least 1 and alpha + beta at most 2 + [memory]. *)
Theorem stats_bounded_by_memory (rmin rmax : Z) (t : R) (m : Z)
    e0 calls self z tk (a alpha beta : Z) :
  construct rmin rmax t m = Ok e0 →
  run e0 calls self →
  binary_outcomes calls →
  get_route_stats self z tk !! a = Some (alpha, beta) →
  1 ≤ alpha ∧ 1 ≤ beta ∧ alpha + beta ≤ 2 + m.
Proof.
  intros Hc Hrun Hbin Hl.
  destruct (reachable_cases _ _ _ _ _ _ _ Hc Hrun)
    as [(Hfit & Hinv0 & Hinv) | (_ & -> & ->)];
    [| unfold get_route_stats in Hl; simpl in Hl;
       by rewrite !lookup_empty in Hl].
  destruct (run_config _ _ _ Hrun) as (_ & _ & _ & Hmem).
  assert (Hb : bounded_params self).
  { apply (bounded_run e0 calls self Hinv0 Hrun Hbin).
    - apply construct_inv in Hc as (-> & _). intros ctx. unfold window. simpl.
      by rewrite lookup_empty.
    - apply construct_inv in Hc as (-> & _). intros ctx params a' ab. simpl.
      by rewrite lookup_empty. }
  apply construct_inv in Hc as (-> & _). simpl in Hmem.
  unfold get_route_stats in Hl.
  destruct (beta_params self !! (z, tk)) as [params |] eqn:Hp; simpl in Hl;
    [| by rewrite lookup_empty in Hl].
  pose proof (Hb (z, tk) params a (alpha, beta) Hp Hl) as Hbound.
  simpl in Hbound. by rewrite Hmem in Hbound.
Qed.

(** ** Calls on different contexts commute *)

Lemma engine_ext self (self' : ForkliftRouteOptimizer Zone Task) :
  route_min self = route_min self' → route_max self = route_max self' →
  tau self = tau self' → memory self = memory self' →
  (∀ ctx, route_history self !! ctx = route_history self' !! ctx) →
  (∀ ctx, beta_params self !! ctx = beta_params self' !! ctx) →
  self = self'.
Proof.
  destruct self, self'. simpl. intros -> -> -> -> Hh Hp.
  f_equal; by apply map_eq.
Qed.

Lemma deque_of_update_ok_other self z t route success ctx :
  (z, t) ≠ ctx →
  deque_of (update_ok self z t route success).1 ctx = deque_of self ctx.
Proof.
  intros Hne. unfold deque_of. rewrite update_ok_history, decide_False by done.
  by destruct (update_ok_config self z t route success) as (_ & _ & _ & ->).
Qed.

Lemma open_error_update_other self z t route success ctx :
  (z, t) ≠ ctx →
  open_error (update self z t route success).1 ctx = open_error self ctx.
Proof.
  intros Hne. unfold open_error.
  destruct (update_other self z t route success ctx Hne) as [-> _].
  by destruct (update_config self z t route success) as (_ & _ & _ & ->).
Qed.

Lemma update_ok_commute self z1 tk1 (r1 s1 : Z) z2 tk2 (r2 s2 : Z) :
  (z1, tk1) ≠ (z2, tk2) →
  (update_ok (update_ok self z1 tk1 r1 s1).1 z2 tk2 r2 s2).1
  = (update_ok (update_ok self z2 tk2 r2 s2).1 z1 tk1 r1 s1).1 ∧
  (update_ok (update_ok self z1 tk1 r1 s1).1 z2 tk2 r2 s2).2
  = (update_ok self z2 tk2 r2 s2).2 ∧
  (update_ok (update_ok self z2 tk2 r2 s2).1 z1 tk1 r1 s1).2
  = (update_ok self z1 tk1 r1 s1).2.
Proof.
  intros Hne.
  assert (Hne' : (z2, tk2) ≠ (z1, tk1)) by congruence.
  destruct (update_ok_config self z1 tk1 r1 s1) as (A1 & A2 & A3 & A4).
  destruct (update_ok_config self z2 tk2 r2 s2) as (B1 & B2 & B3 & B4).
  destruct (update_ok_config (update_ok self z1 tk1 r1 s1).1 z2 tk2 r2 s2)
    as (C1 & C2 & C3 & C4).
  destruct (update_ok_config (update_ok self z2 tk2 r2 s2).1 z1 tk1 r1 s1)
    as (D1 & D2 & D3 & D4).
  split; [| split].
  - apply engine_ext; try congruence.
    + intros ctx. rewrite !update_ok_history.
      rewrite !deque_of_update_ok_other by done.
      repeat case_decide; simplify_eq; done.
    + intros ctx. rewrite !update_ok_params, !update_ok_history.
      rewrite !deque_of_update_ok_other by done.
      rewrite A1, A2, B1, B2.
      rewrite (decide_False (P := (z1, tk1) = (z2, tk2))) by done.
      rewrite (decide_False (P := (z2, tk2) = (z1, tk1))) by done.
      repeat case_decide; simplify_eq; done.
  - rewrite !update_ok_result, deque_of_update_ok_other by done.
    by rewrite A1, A2.
  - rewrite !update_ok_result, deque_of_update_ok_other by done.
    by rewrite B1, B2.
Qed.

(** X10: two calls of [update] for different contexts can be swapped:
    each returns or raises the same in either order, and the engine left
    behind is the same. *)
Theorem updates_on_different_contexts_commute self z1 tk1 (r1 s1 : Z)
    z2 tk2 (r2 s2 : Z) :
  (z1, tk1) ≠ (z2, tk2) →
  (update (update self z1 tk1 r1 s1).1 z2 tk2 r2 s2).1
  = (update (update self z2 tk2 r2 s2).1 z1 tk1 r1 s1).1 ∧
  (update (update self z1 tk1 r1 s1).1 z2 tk2 r2 s2).2
  = (update self z2 tk2 r2 s2).2 ∧
  (update (update self z2 tk2 r2 s2).1 z1 tk1 r1 s1).2
  = (update self z1 tk1 r1 s1).2.
Proof.
  intros Hne.
  assert (Hne' : (z2, tk2) ≠ (z1, tk1)) by congruence.
  pose proof (update_eq (update self z1 tk1 r1 s1).1 z2 tk2 r2 s2) as U12.
  rewrite open_error_update_other in U12 by done.
  pose proof (update_eq (update self z2 tk2 r2 s2).1 z1 tk1 r1 s1) as U21.
  rewrite open_error_update_other in U21 by done.
  pose proof (update_eq self z1 tk1 r1 s1) as U1.
  pose proof (update_eq self z2 tk2 r2 s2) as U2.
  destruct (open_error self (z1, tk1)) as [e1 |] eqn:E1;
    destruct (open_error self (z2, tk2)) as [e2 |] eqn:E2;
    rewrite U12, U21, U1, U2; cbn [fst snd]; try done.
  by apply update_ok_commute.
Qed.

(** ** When selection raises *)


(** ** More on the softmax *)

Lemma np_sum_fmap_ones {A} (f : A → R) (l : list A) :
  (∀ x, x ∈ l → f x = 1%R) → np_sum (f <$> l) = INR (length l).
Proof.
  induction l as [| a l IH]; intros Hone; [done |].
  rewrite fmap_cons. cbn [np_sum foldr length]. fold (np_sum (f <$> l)).
  rewrite S_INR, (Hone a (list_elem_of_here _ _)).
  rewrite IH; [lra |]. intros x Hx. apply Hone. by apply list_elem_of_further.
Qed.

(** X12: the softmax keeps the order of the sampled values: for a
    positive temperature an entry that is not below another gets a
    probability that is not below the other's, and equal entries get
    equal probabilities. *)
Theorem softmax_order_preserving self (values : list R) (i j : nat)
    (vi vj : R) :
  (0 < tau self)%R →
  values !! i = Some vi →
  values !! j = Some vj →
  ∃ probs pi pj,
    softmax self values = Ok probs ∧
    probs !! i = Some pi ∧ probs !! j = Some pj ∧
    ((vi <= vj)%R → (pi <= pj)%R) ∧ (vi = vj → pi = pj).
Proof.
  intros Htau Hi Hj.
  assert (Hne : values ≠ []) by (intros ->; done).
  destruct (softmax_ok self values Hne) as (mx & _ & Hs).
  do 3 eexists. split; [exact Hs |].
  rewrite !list_lookup_fmap, Hi, Hj. simpl.
  split; [done |]. split; [done |].
  set (S := np_sum ((λ v, exp (v / tau self - mx)) <$> values)).
  assert (HS : (0 < S)%R).
  { apply np_sum_fmap_pos; [done |]. intros v. apply exp_pos. }
  split; [| by intros ->].
  intros Hle.
  assert (Hexp : (exp (vi / tau self - mx) <= exp (vj / tau self - mx))%R).
  { destruct Hle as [Hlt | ->]; [| apply Rle_refl].
    left. apply exp_increasing.
    assert (vi / tau self < vj / tau self)%R; [| lra].
    unfold Rdiv. apply Rmult_lt_compat_r; [by apply Rinv_0_lt_compat | done]. }
  unfold Rdiv. apply Rmult_le_compat_r; [| done].
  left. by apply Rinv_0_lt_compat.
Qed.

(** X13: when all the sampled values are equal, [softmax] gives every
    action the same probability, one over the number of actions. *)
Theorem softmax_uniform_on_ties self (values : list R) (v : R) (i : nat) :
  (0 < tau self)%R →
  (∀ x, x ∈ values → x = v) →
  (i < length values)%nat →
  ∃ probs, softmax self values = Ok probs ∧
    probs !! i = Some (/ INR (length values))%R.
Proof.
  intros _ Hall Hi.
  destruct (lookup_lt_is_Some_2 values i Hi) as [vi Hvi].
  assert (vi = v) as -> by (apply Hall; by eapply list_elem_of_lookup_2).
  destruct (softmax_lookup self values i v Hvi) as (probs & Hs & _ & Hp).
  exists probs. split; [done |]. rewrite Hp. do 2 f_equal.
  apply np_sum_fmap_ones. intros x Hx. rewrite (Hall x Hx).
  replace ((v - v) / tau self)%R with 0%R by (unfold Rdiv; lra).
  apply exp_0.
Qed.

(** ** What never changes *)

(** X14: the configuration is fixed for the life of the engine: after
    any history of calls the four parameters are those given to
    [construct], the action space is the same list of integers, and
    every stored deque has [memory] as its bound. *)
Theorem configuration_is_fixed (rmin rmax : Z) (t : R) (m : Z)
    e0 calls self :
  construct rmin rmax t m = Ok e0 →
  run e0 calls self →
  route_min self = rmin ∧ route_max self = rmax ∧ tau self = t ∧
  memory self = m ∧ routes self = range rmin (rmax + 1) ∧
  ∀ ctx d, route_history self !! ctx = Some d → maxlen d = m.
Proof.
  intros Hc Hrun.
  destruct (run_config _ _ _ Hrun) as (H1 & H2 & H3 & H4).
  destruct (reachable_cases _ _ _ _ _ _ _ Hc Hrun)
    as [(Hfit & Hinv0 & Hinv) | (_ & -> & ->)].
  - apply construct_inv in Hc as (-> & _). simpl in H1, H2, H3, H4.
    repeat split; try done.
    + unfold routes. by rewrite H1, H2.
    + intros ctx d Hd. rewrite <- H4. by apply (inv_deque _ Hinv ctx).
  - repeat split; done.
Qed.

(** X15: the two registries stay in step: after any history of calls,
    with calls that raised among them, a context has a window exactly
    when it has Beta parameters. *)
Theorem registries_share_their_keys (rmin rmax : Z) (t : R) (m : Z)
    e0 calls self :
  construct rmin rmax t m = Ok e0 →
  run e0 calls self →
  dom (route_history self) = dom (beta_params self).
Proof.
  intros Hc Hrun.
  destruct (reachable_cases _ _ _ _ _ _ _ Hc Hrun)
    as [(Hfit & Hinv0 & Hinv) | (_ & -> & ->)].
  - apply set_eq. intros ctx. rewrite !elem_of_dom. apply Hinv.
  - simpl. by rewrite !dom_empty_L.
Qed.

End Further.

(** ** The further properties at the warehouse *)

Lemma other_contexts_untouched_witness :
  window after_shift ("yard", "tote") = window warehouse ("yard", "tote") ∧
  get_route_stats after_shift "yard" "tote"
  = get_route_stats warehouse "yard" "tote" ∧
  (is_Some (route_history after_shift !! ("yard", "tote"))
   ↔ is_Some (route_history warehouse !! ("yard", "tote"))).
Proof.
  apply (other_contexts_untouched warehouse shift_calls after_shift
           "yard" "tote" after_shift_run).
  reflexivity.
Defined.

Lemma oversized_run :
  run oversized [Update "dock" "pallet" 3 1]
      (replay oversized [Update "dock" "pallet" 3 1]).
Proof. apply replay_run. Qed.

Lemma context_created_on_first_reference_witness :
  route_history after_shift !! ("yard", "tote") = None ∧
  is_Some (route_history after_shift !! ("aisle", "tote")) ∧
  get_route_stats after_shift "aisle" "tote" ≠ ∅ ∧
  route_history (replay oversized [Update "dock" "pallet" 3 1])
    !! ("dock", "pallet") = None.
Proof.
  destruct (context_created_on_first_reference 1 10 2 2 warehouse shift_calls
              after_shift "yard" "tote" warehouse_constructed after_shift_run)
    as (Hnot & _ & _).
  destruct (context_created_on_first_reference 1 10 2 2 warehouse shift_calls
              after_shift "aisle" "tote" warehouse_constructed after_shift_run)
    as (_ & Hnamed & _).
  destruct (context_created_on_first_reference 1 10 2 (2 ^ 63) oversized
              [Update "dock" "pallet" 3 1] _ "dock" "pallet"
              oversized_constructed oversized_run)
    as (_ & _ & Hbig).
  split; [exact (proj1 (Hnot eq_refl)) |].
  split; [exact (proj1 (Hnamed warehouse_fits eq_refl)) |].
  split; [exact (proj2 (Hnamed warehouse_fits eq_refl)) |].
  exact (proj1 (Hbig oversized_memory)).
Defined.

Lemma select_route_only_creates_witness :
  window (ensure_context warehouse ("dock", "pallet")).1 ("dock", "pallet")
  = window warehouse ("dock", "pallet") ∧
  get_route_stats (ensure_context warehouse ("dock", "pallet")).1
    "dock" "pallet" !! 4 = Some (1, 1) ∧
  get_route_stats (ensure_context warehouse ("dock", "pallet")).1
    "dock" "pallet" !! 11 = None.
Proof.
  destruct (select_route_total warehouse "dock" "pallet") as [r Hr].
  destruct (select_route_only_creates warehouse "dock" "pallet" _ r Hr)
    as (Hw & _ & _ & Hnew).
  split; [apply Hw |].
  destruct (Hnew eq_refl) as [(e & Hd & _) | (_ & _ & Hstats)].
  - vm_compute in Hd. discriminate.
  - split; [exact (Hstats 4) | exact (Hstats 11)].
Defined.

Lemma update_after_select_witness :
  update (ensure_context after_shift ("yard", "tote")).1 "yard" "tote" 7 1
  = update after_shift "yard" "tote" 7 1.
Proof.
  destruct (select_route_total after_shift "yard" "tote") as [r Hr].
  exact (update_after_select after_shift "yard" "tote" _ r 7 1 Hr).
Defined.

Lemma update_raises_exactly_witness :
  ((update after_shift "dock" "pallet" 11 1).2 = Ok tt
   ↔ Forall (λ o, 1 ≤ o.1 ≤ 10)
       (lastn 2 (window after_shift ("dock", "pallet") ++ [(11, 1)]))) ∧
  ((update after_shift "dock" "pallet" 11 1).2 = Raise KeyError
   ↔ Exists (λ o, ¬ 1 ≤ o.1 ≤ 10)
       (lastn 2 (window after_shift ("dock", "pallet") ++ [(11, 1)]))) ∧
  (update (replay oversized [Update "dock" "pallet" 3 1]) "dock" "pallet" 4 0).2
  = Raise (OverflowError "Python int too large to convert to C ssize_t").
Proof.
  destruct (update_raises_exactly 1 10 2 2 warehouse shift_calls after_shift
              "dock" "pallet" 11 1 warehouse_constructed after_shift_run)
    as [Hfit _].
  destruct (update_raises_exactly 1 10 2 (2 ^ 63) oversized
              [Update "dock" "pallet" 3 1] _ "dock" "pallet" 4 0
              oversized_constructed oversized_run)
    as [_ Hbig].
  destruct (Hfit warehouse_fits) as [Hok Hraise].
  split; [exact Hok |]. split; [exact Hraise |].
  exact (Hbig oversized_memory).
Defined.

Lemma window_counts_failed_calls_witness :
  window (replay warehouse recovery_calls) ("dock", "pallet")
  = lastn 2 (observations ("dock", "pallet") recovery_calls) ∧
  Z.of_nat (length (window (replay warehouse recovery_calls) ("dock", "pallet")))
  = Z.min (Z.of_nat (length (observations ("dock", "pallet") recovery_calls))) 2.
Proof.
  destruct (window_counts_failed_calls 1 10 2 2 warehouse recovery_calls _
              "dock" "pallet" warehouse_constructed
              (replay_run warehouse recovery_calls)) as [Hfit _].
  exact (Hfit warehouse_fits).
Defined.

Lemma after_shift_window_valid :
  Forall (λ o, 1 ≤ o.1 ≤ 10) (window after_shift ("dock", "pallet")).
Proof.
  assert (window after_shift ("dock", "pallet") = [(3, 0); (4, 1)]) as ->
    by (vm_compute; reflexivity).
  repeat apply Forall_cons_2; try apply Forall_nil; simpl; lia.
Qed.

Lemma alpha_plus_beta_counts_observations_witness :
  ∃ alpha beta,
    get_route_stats after_shift "dock" "pallet" !! 3 = Some (alpha, beta) ∧
    alpha + beta
    = 2 + Z.of_nat (length (filter (λ o, o.1 = 3)
                              (window after_shift ("dock", "pallet")))).
Proof.
  apply (alpha_plus_beta_counts_observations 1 10 2 2 warehouse shift_calls
           after_shift "dock" "pallet" 3 warehouse_constructed after_shift_run).
  - vm_compute. eauto.
  - exact after_shift_window_valid.
  - lia.
Defined.

Lemma stats_bounded_by_memory_witness : 1 ≤ 1 ∧ 1 ≤ 2 ∧ 1 + 2 ≤ 2 + 2.
Proof.
  apply (stats_bounded_by_memory 1 10 2 2 warehouse shift_calls after_shift
           "dock" "pallet" 3 1 2 warehouse_constructed after_shift_run
           shift_calls_binary).
  vm_compute. reflexivity.
Defined.


Lemma updates_on_different_contexts_commute_witness :
  (update (update after_shift "dock" "pallet" 11 1).1 "aisle" "tote" 2 0).1
  = (update (update after_shift "aisle" "tote" 2 0).1 "dock" "pallet" 11 1).1 ∧
  (update (update after_shift "dock" "pallet" 11 1).1 "aisle" "tote" 2 0).2
  = (update after_shift "aisle" "tote" 2 0).2 ∧
  (update (update after_shift "aisle" "tote" 2 0).1 "dock" "pallet" 11 1).2
  = (update after_shift "dock" "pallet" 11 1).2.
Proof.
  apply (updates_on_different_contexts_commute after_shift
           "dock" "pallet" 11 1 "aisle" "tote" 2 0).
  discriminate.
Defined.


Lemma softmax_order_preserving_witness :
  ∃ probs pi pj,
    softmax warehouse [1 / 5; 9 / 10; 1 / 2]%R = Ok probs ∧
    probs !! 0%nat = Some pi ∧ probs !! 1%nat = Some pj ∧
    ((1 / 5 <= 9 / 10)%R → (pi <= pj)%R) ∧
    ((1 / 5)%R = (9 / 10)%R → pi = pj).
Proof.
  apply (softmax_order_preserving warehouse [1 / 5; 9 / 10; 1 / 2]%R
           0%nat 1%nat (1 / 5)%R (9 / 10)%R).
  - simpl. lra.
  - reflexivity.
  - reflexivity.
Defined.

Lemma softmax_uniform_on_ties_witness :
  ∃ probs, softmax warehouse [1 / 2; 1 / 2; 1 / 2]%R = Ok probs ∧
    probs !! 1%nat = Some (/ INR 3)%R.
Proof.
  apply (softmax_uniform_on_ties warehouse [1 / 2; 1 / 2; 1 / 2]%R
           (1 / 2)%R 1%nat).
  - simpl. lra.
  - intros x Hx.
    repeat (apply elem_of_cons in Hx as [-> | Hx]; [done |]).
    by apply elem_of_nil in Hx.
  - simpl. lia.
Defined.

Lemma configuration_is_fixed_witness :
  route_min (replay warehouse recovery_calls) = 1 ∧
  route_max (replay warehouse recovery_calls) = 10 ∧
  tau (replay warehouse recovery_calls) = 2%R ∧
  memory (replay warehouse recovery_calls) = 2 ∧
  routes (replay warehouse recovery_calls) = range 1 (10 + 1) ∧
  ∀ ctx d, route_history (replay warehouse recovery_calls) !! ctx = Some d →
           maxlen d = 2.
Proof.
  exact (configuration_is_fixed 1 10 2 2 warehouse recovery_calls _
           warehouse_constructed
           (replay_run warehouse recovery_calls)).
Defined.

Lemma registries_share_their_keys_witness :
  dom (route_history (replay warehouse recovery_calls))
  = dom (beta_params (replay warehouse recovery_calls)).
Proof.
  exact (registries_share_their_keys 1 10 2 2 warehouse recovery_calls _
           warehouse_constructed
           (replay_run warehouse recovery_calls)).
Defined.
